(** * cert-monitor-lambda: a shallow embedding of the sync engine

    This development models the Go sources of cert-monitor-lambda
    ([main.go] and [config.go]): the rule engine [nameMatches], the
    per-log sync task [processLog], and the run coordinator [Handler].
    The external collaborators (S3, the CT log client, x509 decoding,
    regexp compilation) are modelled at the boundary the code calls. *)

From stdpp Require Import base gmap strings list.
From Stdlib Require Import ZArith Ascii String Lia Sorted.

Open Scope Z_scope.

(* ------------------------------------------------------------------ *)
(** ** Go's [strings.HasSuffix] *)

(** [strings.HasSuffix(s, suffix)]:
    [len(s) >= len(suffix) && s[len(s)-len(suffix):] == suffix]. *)
Definition HasSuffix (s suffix : string) : bool :=
  (String.length suffix <=? String.length s)%nat &&
  String.eqb
    (substring (String.length s - String.length suffix) (String.length suffix) s)
    suffix.

(* ------------------------------------------------------------------ *)
(** ** Data model *)

(** The part of [x509.Certificate] the matcher reads. *)
Record Certificate := mkCertificate { DNSNames : list string }.

(** [Config] of config.go. *)
Record Config := mkConfig {
  Domains : list string;
  Patterns : list string;
  IncludePreCerts : bool
}.

(** A compiled [*regexp.Regexp]: its source text and its [Match]. *)
Record Regexp := mkRegexp {
  rx_source : string;
  rx_match : string -> bool
}.

(* ------------------------------------------------------------------ *)
(** ** Rule engine: [nameMatches] *)

(** The domain test in the inner loop of [nameMatches]. *)
Definition domainMatches (name lookingFor : string) : bool :=
  HasSuffix name lookingFor &&
  (String.eqb name lookingFor || HasSuffix name ("." ++ lookingFor)%string).

Fixpoint matchDomains (name : string) (domains : list string)
  : option string :=
  match domains with
  | [] => None
  | lookingFor :: rest =>
      if domainMatches name lookingFor
      then Some ("domain-" ++ lookingFor)%string
      else matchDomains name rest
  end.

Fixpoint matchPatterns (name : string) (patterns : list Regexp)
  : option string :=
  match patterns with
  | [] => None
  | p :: rest =>
      if rx_match p name
      then Some ("pattern-" ++ rx_source p)%string
      else matchPatterns name rest
  end.

(** [func (s *server) nameMatches(c *x509.Certificate) (bool, string, string)] *)
Fixpoint nameMatches_names (conf : Config) (patterns : list Regexp)
    (names : list string) : bool * string * string :=
  match names with
  | [] => (false, ""%string, ""%string)
  | name :: rest =>
      match matchDomains name (Domains conf) with
      | Some d => (true, name, d)
      | None =>
          match matchPatterns name patterns with
          | Some p => (true, name, p)
          | None => nameMatches_names conf patterns rest
          end
      end
  end.

Definition nameMatches (conf : Config) (patterns : list Regexp)
    (c : Certificate) : bool * string * string :=
  nameMatches_names conf patterns (DNSNames c).

(** The rule as the spec words it: [n = R] or [n] ends with ["." ++ R]. *)
Definition spec_suffix_match (n R : string) : Prop :=
  n = R \/ exists p, n = (p ++ "." ++ R)%string.

(* ------------------------------------------------------------------ *)
(** ** Machine integers *)

(** Wrap-around of a [uint64] sum. *)
Definition u64 (x : Z) : Z := x mod 2 ^ 64.

(** Go's conversion [int64(x)] of a [uint64] [x]. *)
Definition toInt64 (x : Z) : Z := if x <? 2 ^ 63 then x else x - 2 ^ 64.

(* ------------------------------------------------------------------ *)
(** ** Per-log state and the log client *)

(** [type LogState struct]; [LastFetched] is a [uint64], [LastFetchedTime]
    a [time.Time] written as a timestamp (0 is Go's zero time). *)
Record LogState := mkLogState {
  URL : string;
  Operator : string;
  Description : string;
  LastFetched : Z;
  LastFetchedTime : Z
}.

(** [state.LastFetched = size; state.LastFetchedTime = time.Now()]. *)
Definition set_fetched (st : LogState) (size now : Z) : LogState :=
  mkLogState (URL st) (Operator st) (Description st) size now.

(** [ct.LeafEntry]: an opaque raw entry of a get-entries response. *)
Record RawEntry := mkRawEntry { leaf_input : string }.

(** The parts of [ct.LogEntry] the code reads: [X509Cert] and
    [Precert.TBSCertificate]. *)
Record LogEntry := mkLogEntry {
  X509Cert : option Certificate;
  Precert : option Certificate
}.

(** Result of [ct.LogEntryFromLeaf]: no error, an error for which
    [x509.IsFatal] is false (the entry is still returned), or a fatal one. *)
Inductive DecodeResult :=
| DecOk (e : LogEntry)
| DecNonFatal (e : LogEntry)
| DecFatal.

Inductive Err :=
| ErrNewClient
| ErrMarshal
| ErrPutObject
| ErrNoBucket
| ErrAwsConfig
| ErrLoadConfig
| ErrFetchLogList
| ErrCompile (pattern : string)
| ErrNilDeref
| ErrPutState.

(** What one sync task sees of the outside world. *)
Record LogEnv := mkLogEnv {
  client_new_ok : bool;                        (* client.New *)
  get_sth : option Z;                          (* lc.GetSTH: tree size *)
  get_entries : Z -> Z -> option (list RawEntry); (* get-entries request *)
  decode : Z -> RawEntry -> DecodeResult;      (* ct.LogEntryFromLeaf *)
  marshal_ok : RawEntry -> bool;               (* json.Marshal(entry) *)
  put_ok : Z -> bool;                          (* S3 PutObject of the artifact
                                                  written for this index *)
  now : Z                                      (* time.Now() *)
}.

(** Calls made by a sync task. *)
Inductive Event :=
| EvGetSTH
| EvGetRawEntries (start end_ : Z)
| EvDecode (index : Z)
| EvPut (index : Z) (name : string) (ok : bool).

Inductive Outcome :=
| Done (st : LogState)
| Fatal (e : Err).

(** [LogClient.GetRawEntries(ctx, start, end)] of certificate-transparency-go:
    it refuses [end < 0] and [end < start] before any request, then issues
    the RFC 6962 [get-entries?start=..&end=..] request ([end] inclusive). *)
Definition GetRawEntries (env : LogEnv) (start end_ : Z)
  : option (list RawEntry) :=
  if end_ <? 0 then None
  else if end_ <? start then None
  else get_entries env start end_.

(** A well-behaved RFC 6962 log holding [log]: get-entries returns the
    entries with indices [start..end] (inclusive), clipped to the tree. *)
Definition ct_get_entries (log : list RawEntry) (start end_ : Z)
  : option (list RawEntry) :=
  if start <? 0 then None
  else if Z.of_nat (List.length log) <=? start then None
  else Some (take (Z.to_nat (Z.min end_ (Z.of_nat (List.length log) - 1) - start + 1))
                  (drop (Z.to_nat start) log)).

(** The certificate selected in the loop body of [processLog]. *)
Definition selectCert (conf : Config) (le : LogEntry) : option Certificate :=
  match IncludePreCerts conf, Precert le with
  | true, Some tbs => Some tbs
  | _, _ => X509Cert le
  end.

Definition cons_ev (ev : Event) (r : list Event * option Err)
  : list Event * option Err := (ev :: r.1, r.2).

(** The loop [for i, entry := range rawEntries.Entries] of [processLog]. *)
Fixpoint scanEntries (conf : Config) (pats : list Regexp) (env : LogEnv)
    (start : Z) (i : nat) (es : list RawEntry) : list Event * option Err :=
  match es with
  | [] => ([], None)
  | entry :: rest =>
      let index := start + Z.of_nat i in
      let continue_ := scanEntries conf pats env start (S i) rest in
      cons_ev (EvDecode index)
        match decode env index entry with
        | DecFatal => continue_
        | DecOk le | DecNonFatal le =>
            match selectCert conf le with
            | None => continue_
            | Some cert =>
                match nameMatches conf pats cert with
                | (true, name, _) =>
                    if marshal_ok env entry then
                      if put_ok env index
                      then cons_ev (EvPut index name true) continue_
                      else ([EvPut index name false], Some ErrPutObject)
                    else ([], Some ErrMarshal)
                | _ => continue_
                end
            end
        end
  end.

(** [func (s *server) processLog(ctx, lgr, state) ( *LogState, error)]. *)
Definition processLog (conf : Config) (pats : list Regexp) (env : LogEnv)
    (st : LogState) : list Event * Outcome :=
  if negb (client_new_ok env) then ([], Fatal ErrNewClient) else
  match get_sth env with
  | None => ([EvGetSTH], Done st)
  | Some treeSize =>
      if LastFetched st =? 0
      then ([EvGetSTH], Done (set_fetched st treeSize (now env)))
      else if treeSize =? LastFetched st then ([EvGetSTH], Done st)
      else
        let start := toInt64 (u64 (LastFetched st + 1)) in
        let end_ := toInt64 treeSize in
        match GetRawEntries env start end_ with
        | None => ([EvGetSTH; EvGetRawEntries start end_], Done st)
        | Some es =>
            let r := scanEntries conf pats env start 0 es in
            (EvGetSTH :: EvGetRawEntries start end_ :: r.1,
             match r.2 with
             | Some e => Fatal e
             | None => Done (set_fetched st treeSize (now env))
             end)
        end
  end.

(* ------------------------------------------------------------------ *)
(** ** A concrete log for the examples *)

Definition google_conf : Config := mkConfig ["google.com"] [] false.

(** Every leaf decodes to a certificate whose only name is the leaf text. *)
Definition plain_decode (index : Z) (e : RawEntry) : DecodeResult :=
  DecOk (mkLogEntry (Some (mkCertificate [leaf_input e])) None).

(** A log of [n] entries whose entry [hit] names www.google.com. *)
Definition sample_log (n hit : nat) : list RawEntry :=
  map (fun i => mkRawEntry (if Nat.eqb i hit then "www.google.com"
                            else "other.example.org"))
      (seq 0 n).

Definition env_of_log (log : list RawEntry) : LogEnv :=
  mkLogEnv true (Some (Z.of_nat (List.length log))) (ct_get_entries log)
    plain_decode (fun _ => true) (fun _ => true) 1000.

Definition state_at (size : Z) : LogState :=
  mkLogState "https://ct.example.net/log/" "Example" "example log" size 500.

(** The name under which the loop body of [processLog] writes an artifact
    for an entry with this decode result, if it writes one. *)
Definition entry_match (conf : Config) (pats : list Regexp)
    (d : DecodeResult) : option string :=
  match d with
  | DecFatal => None
  | DecOk le | DecNonFatal le =>
      match selectCert conf le with
      | None => None
      | Some cert =>
          match nameMatches conf pats cert with
          | (true, name, _) => Some name
          | _ => None
          end
      end
  end.

(** Decoding with tagged leaves: a leaf "!..." fails fatally, a leaf
    "~name" decodes with a non-fatal error to a certificate for [name],
    any other leaf decodes cleanly to a certificate for its text. *)
Definition tagged_decode (index : Z) (e : RawEntry) : DecodeResult :=
  match leaf_input e with
  | String "!"%char _ => DecFatal
  | String "~"%char name => DecNonFatal (mkLogEntry (Some (mkCertificate [name])) None)
  | name => DecOk (mkLogEntry (Some (mkCertificate [name])) None)
  end.

(** A 13-entry log whose entry 11 cannot be parsed and whose entry 12
    parses with a non-fatal error and names www.google.com. *)
Definition decode_error_log : list RawEntry :=
  map (fun _ => mkRawEntry "other.example.org") (seq 0 11) ++
  [mkRawEntry "!garbage"; mkRawEntry "~www.google.com"].

Definition decode_error_env : LogEnv :=
  mkLogEnv true (Some 13) (ct_get_entries decode_error_log)
    tagged_decode (fun _ => true) (fun _ => true) 1000.

(* ------------------------------------------------------------------ *)
(** ** The run coordinator: [Handler] *)

(** [type LogStates map[string]*LogState] *)
Abbreviation LogStates := (gmap string LogState).

(** The parts of loglist3 the handler reads: a log's URL, description and
    whether [log.State.LogStatus() == loglist3.UsableLogStatus]. *)
Record CTLog := mkCTLog {
  log_url : string;
  log_description : string;
  usable : bool
}.

Record LogOperator := mkLogOperator {
  operator_name : string;
  operator_logs : list CTLog
}.

Record LogList := mkLogList { Operators : list LogOperator }.

(** The S3 object [log-state.json] when the run starts. *)
Inductive StateObject :=
| StateMissing
| StateCorrupt
| StateStored (m : gmap string LogState).

(** [fetchLogState]: GetObject, then JSON-decode the body. *)
Definition fetchLogState (get_ok : bool) (obj : StateObject)
  : option LogStates :=
  if negb get_ok then None
  else match obj with
       | StateStored m => Some m
       | StateMissing | StateCorrupt => None
       end.

(** A message received by the first [select] loop. *)
Inductive LoadMsg :=
| MConf (c : Config)
| MStates (m : gmap string LogState)
| MList (l : LogList)
| MErr (e : Err).

(** What the handler sees of the outside world in one run.  The two
    schedulers give the order in which the channel receives of the two
    [select] loops see the goroutines' messages. *)
Record World := mkWorld {
  bucket_env : string;                  (* CERT_MONITOR_BUCKET *)
  aws_config_ok : bool;                 (* config.LoadDefaultConfig *)
  config_object : option Config;        (* loadConfig *)
  state_get_ok : bool;                  (* GetObject of log-state.json *)
  log_list : option LogList;            (* fetchLogList *)
  compile : string -> option Regexp;    (* regexp.Compile *)
  log_env : string -> LogEnv;           (* the log at this URL *)
  load_sched : list LoadMsg -> list LoadMsg;
  result_sched : list Outcome -> list Outcome;
  put_state_ok : bool                   (* PutObject of log-state.json *)
}.

(** The first message each loader goroutine sends: an error on
    [errorChan], or its result. *)
Definition load_msgs (obj : StateObject) (w : World) : list LoadMsg :=
  [match config_object w with
   | Some c => MConf c
   | None => MErr ErrLoadConfig
   end;
   MStates (match fetchLogState (state_get_ok w) obj with
            | Some m => m
            | None => ∅
            end);
   match log_list w with
   | Some l => MList l
   | None => MErr ErrFetchLogList
   end].

(** [for i := 0; i < 3; i++ { select { ... } }] *)
Fixpoint load_loop (n : nat) (msgs : list LoadMsg) (c : option Config)
    (m : option LogStates) (l : option LogList)
  : Err + (option Config * option LogStates * option LogList) :=
  match n, msgs with
  | O, _ => inr (c, m, l)
  | S n', msg :: rest =>
      match msg with
      | MConf c' => load_loop n' rest (Some c') m l
      | MStates m' => load_loop n' rest c (Some m') l
      | MList l' => load_loop n' rest c m (Some l')
      | MErr e => inl e
      end
  | S _, [] => inr (c, m, l)
  end.

(** The [regexp.Compile] loop over [s.conf.Patterns]. *)
Fixpoint compilePatterns (compile : string -> option Regexp)
    (ps : list string) : Err + list Regexp :=
  match ps with
  | [] => inr []
  | p :: rest =>
      match compile p with
      | None => inl (ErrCompile p)
      | Some r =>
          match compilePatterns compile rest with
          | inl e => inl e
          | inr rs => inr (r :: rs)
          end
      end
  end.

(** [state := states[log.URL]], or a fresh state when absent. *)
Definition initialState (states : LogStates) (op : LogOperator) (lg : CTLog)
  : LogState :=
  match states !! log_url lg with
  | Some st => st
  | None => mkLogState (log_url lg) (operator_name op) (log_description lg) 0 0
  end.

(** The states handed to the sync goroutines, one per usable log. *)
Definition launchTasks (states : LogStates) (ll : LogList) : list LogState :=
  flat_map (fun op => map (initialState states op)
                          (List.filter usable (operator_logs op)))
           (Operators ll).

(** The second [select] loop: [states[state.URL] = state] per result,
    return on the first error.  The states are taken as values: Go's
    sync task updates the [*LogState] it was handed, which is also the
    one held at [states[log.URL]], and hands it back.  The two readings
    agree when every loaded key holds a state for that URL (as the
    handler writes the file): then the key a task updates in place is
    its result's [URL]. *)
Fixpoint collect (states : LogStates) (results : list Outcome)
  : Err + LogStates :=
  match results with
  | [] => inr states
  | Done st :: rest => collect (<[URL st := st]> states) rest
  | Fatal e :: _ => inl e
  end.

(** What the handler does: the sync tasks it runs (with their calls)
    and the state file it writes. *)
Inductive HEvent :=
| HTask (url : string) (trace : list Event)
| HSaveState (m : gmap string LogState).

Inductive RunResult := RunOk | RunFatal (e : Err).

(** [func (s *server) Handler(evt events.CloudWatchEvent) error] *)
Definition Handler (obj : StateObject) (w : World) : list HEvent * RunResult :=
  if String.eqb (bucket_env w) "" then ([], RunFatal ErrNoBucket) else
  if negb (aws_config_ok w) then ([], RunFatal ErrAwsConfig) else
  match load_loop 3 (load_sched w (load_msgs obj w)) None None None with
  | inl e => ([], RunFatal e)
  | inr (Some conf, Some states, Some ll) =>
      match compilePatterns (compile w) (Patterns conf) with
      | inl e => ([], RunFatal e)
      | inr pats =>
          let tasks := launchTasks states ll in
          let run st := processLog conf pats (log_env w (URL st)) st in
          let evs := map (fun st => HTask (URL st) (run st).1) tasks in
          match collect states (result_sched w (map (fun st => (run st).2) tasks)) with
          | inl e => (evs, RunFatal e)
          | inr final =>
              if put_state_ok w then (evs ++ [HSaveState final], RunOk)
              else (evs, RunFatal ErrPutState)
          end
      end
  | inr _ => ([], RunFatal ErrNilDeref)
  end.

(* ------------------------------------------------------------------ *)
(** ** Concrete runs for the examples *)

Definition monitored_url : string := "https://ct.example.net/log/".

Definition one_log_list : LogList :=
  mkLogList [mkLogOperator "Example" [mkCTLog monitored_url "example log" true]].

(** [regexp.Compile] accepting every pattern (the compiled patterns never
    match in these examples). *)
Definition accept_all (p : string) : option Regexp :=
  Some (mkRegexp p (fun _ => false)).

(** [regexp.Compile] rejecting the unbalanced pattern "(". *)
Definition reject_paren (p : string) : option Regexp :=
  if String.eqb p "(" then None else accept_all p.

(** A run over [one_log_list] whose messages arrive in launch order. *)
Definition sample_world (conf : Config) (compile : string -> option Regexp)
    (get_ok : bool) (env : LogEnv) : World :=
  mkWorld "cert-monitor" true (Some conf) get_ok (Some one_log_list) compile
    (fun _ => env) (fun l => l) (fun l => l) true.

(** The log of [sample_log 15 12], whose artifact writes all fail. *)
Definition failing_put_env : LogEnv :=
  mkLogEnv true (Some 15) (ct_get_entries (sample_log 15 12)) plain_decode
    (fun _ => true) (fun _ => false) 1000.

(** A log whose size query fails. *)
Definition unreachable_env : LogEnv :=
  mkLogEnv true None (ct_get_entries []) plain_decode
    (fun _ => true) (fun _ => true) 1000.

Definition stored_at (size : Z) : StateObject :=
  StateStored {[ monitored_url := state_at size ]}.

(** One log's persisted state over successive runs.  Each run is given
    whether the state file loaded and what the log answers.  A run whose
    file loaded starts from the persisted state; one whose file failed to
    load starts from a fresh zero state; a run whose task fails fatally
    persists nothing, so the next run sees the same persisted state. *)
Fixpoint later_runs (conf : Config) (pats : list Regexp) (st : LogState)
    (runs : list (bool * LogEnv)) : list (list Event) :=
  match runs with
  | [] => []
  | (loaded, env) :: rest =>
      let input := if loaded then st
                   else mkLogState (URL st) (Operator st) (Description st) 0 0 in
      let r := processLog conf pats env input in
      r.1 :: later_runs conf pats
               (match r.2 with Done st' => st' | Fatal _ => st end) rest
  end.

(** The log of [sample_log 15 12] behind a server that answers at most
    two entries per get-entries request. *)
Definition truncating_env : LogEnv :=
  mkLogEnv true (Some 15)
    (fun s e => option_map (take 2) (ct_get_entries (sample_log 15 12) s e))
    plain_decode (fun _ => true) (fun _ => true) 1000.

(* ------------------------------------------------------------------ *)
(** ** Projections of a sync task's calls *)

(** The indices of the entries decoded, in call order. *)
Definition decoded_indices (tr : list Event) : list Z :=
  flat_map (fun ev => match ev with EvDecode i => [i] | _ => [] end) tr.

(** The indices of the entries for which an artifact write was issued,
    in call order. *)
Definition put_indices (tr : list Event) : list Z :=
  flat_map (fun ev => match ev with EvPut i _ _ => [i] | _ => [] end) tr.

(** A catalog whose only log is no longer usable. *)
Definition retired_log_list : LogList :=
  mkLogList [mkLogOperator "Example" [mkCTLog monitored_url "example log" false]].

(* ------------------------------------------------------------------ *)
(** ** The json-to-cert tool *)

(** The values of its [-format] flag. *)
Inductive CertFormat := FormatText | FormatJson | FormatPem.

(** The [switch *format] choosing [printFunc]. *)
Definition parseFormat (s : string) : option CertFormat :=
  if String.eqb s "text" then Some FormatText
  else if String.eqb s "json" then Some FormatJson
  else if String.eqb s "pem" then Some FormatPem
  else None.

(** What the tool sees of the outside world. *)
Record ToolEnv := mkToolEnv {
  open_ok : string -> bool;                   (* os.Open *)
  read_leaf : string -> option RawEntry;      (* json Decode into ct.LeafEntry *)
  leaf_decode : Z -> RawEntry -> DecodeResult; (* ct.LogEntryFromLeaf *)
  text_ok : Certificate -> bool;              (* x509.ParseCertificate of Raw,
                                                 then certinfo.CertificateText *)
  json_ok : Certificate -> bool               (* json.MarshalIndent *)
}.

Inductive ToolEvent :=
| TOpen (path : string)
| TPrint (fmt : CertFormat) (c : Certificate).

(** [log.Fatal] ends the process; otherwise [main] returns. *)
Inductive ToolExit := ToolOk | ToolFatal.

(** [printText], [printJson] and [printPem]. *)
Definition printCert (env : ToolEnv) (fmt : CertFormat) (c : Certificate)
  : list ToolEvent * ToolExit :=
  match fmt with
  | FormatText => if text_ok env c then ([TPrint FormatText c], ToolOk)
                  else ([], ToolFatal)
  | FormatJson => if json_ok env c then ([TPrint FormatJson c], ToolOk)
                  else ([], ToolFatal)
  | FormatPem => ([TPrint FormatPem c], ToolOk)
  end.

(** [main] of cmd/json-to-cert, given the [-format] flag and [flag.Args()]. *)
Definition json_to_cert (format : string) (args : list string) (env : ToolEnv)
  : list ToolEvent * ToolExit :=
  match parseFormat format with
  | None => ([], ToolFatal)
  | Some fmt =>
      match args with
      | [] => ([], ToolFatal)
      | path :: _ =>
          if negb (open_ok env path) then ([TOpen path], ToolFatal) else
          match read_leaf env path with
          | None => ([TOpen path], ToolFatal)
          | Some raw =>
              match leaf_decode env 0 raw with
              | DecFatal | DecNonFatal _ => ([TOpen path], ToolFatal)
              | DecOk le =>
                  match X509Cert le, Precert le with
                  | Some c, _ | None, Some c =>
                      let r := printCert env fmt c in (TOpen path :: r.1, r.2)
                  | None, None => ([TOpen path], ToolOk)
                  end
              end
          end
      end
  end.

(** A file holding one leaf, read back as written; every leaf decodes as
    [tagged_decode] does. *)
Definition tool_env_of (path : string) (leaf : RawEntry) : ToolEnv :=
  mkToolEnv (fun p => String.eqb p path)
    (fun p => if String.eqb p path then Some leaf else None)
    tagged_decode (fun _ => true) (fun _ => true).

(** A run over [retired_log_list] whose messages arrive in launch order. *)
Definition retired_world (get_ok : bool) : World :=
  mkWorld "cert-monitor" true (Some google_conf) get_ok (Some retired_log_list)
    accept_all (fun _ => env_of_log (sample_log 15 12)) (fun l => l) (fun l => l)
    true.

(** Every leaf decodes to a precertificate whose TBS certificate names the
    leaf text. *)
Definition precert_decode (index : Z) (e : RawEntry) : DecodeResult :=
  DecOk (mkLogEntry None (Some (mkCertificate [leaf_input e]))).

Definition precert_env : LogEnv :=
  mkLogEnv true (Some 15) (ct_get_entries (sample_log 15 12)) precert_decode
    (fun _ => true) (fun _ => true) 1000.

(* ================================================================== *)
(** * Properties *)

(** ** Strings *)

Lemma length_append_str (s t : string) :
  String.length (s ++ t) = (String.length s + String.length t)%nat.
Proof. induction s as [|c s IH]; simpl; [done | by rewrite IH]. Qed.

Lemma append_assoc_str (a b c : string) :
  (a ++ b ++ c)%string = ((a ++ b) ++ c)%string.
Proof.
  induction a as [|x a IH]; [done |].
  change (String x (a ++ b ++ c) = String x ((a ++ b) ++ c))%string.
  by rewrite IH.
Qed.

Lemma substring_after_prefix (p q : string) (m : nat) :
  substring (String.length p) m (p ++ q) = substring 0 m q.
Proof. induction p as [|c p IH]; simpl; [done | apply IH]. Qed.

Lemma substring_whole (t : string) : substring 0 (String.length t) t = t.
Proof. induction t as [|c t IH]; simpl; [done | by rewrite IH]. Qed.

Lemma split_at (s : string) (k : nat) :
  (k <= String.length s)%nat ->
  s = (substring 0 k s ++ substring k (String.length s - k) s)%string.
Proof.
  revert k. induction s as [|c s IH]; intros k Hk; simpl in *.
  - destruct k; [done | lia].
  - destruct k as [|k].
    + simpl. by rewrite substring_whole.
    + change (String c s = String c (substring 0 k s ++ substring k (String.length s - k) s))%string. f_equal. apply IH. lia.
Qed.

Lemma HasSuffix_spec (s t : string) :
  HasSuffix s t = true <-> exists p, s = (p ++ t)%string.
Proof.
  unfold HasSuffix. split.
  - intros H. apply andb_true_iff in H as [Hle Heq].
    apply Nat.leb_le in Hle. apply String.eqb_eq in Heq.
    exists (substring 0 (String.length s - String.length t) s).
    rewrite (split_at s (String.length s - String.length t)) at 1 by lia.
    replace (String.length s - (String.length s - String.length t))%nat
      with (String.length t) by lia.
    by rewrite Heq.
  - intros [p ->]. rewrite length_append_str.
    apply andb_true_iff. split.
    + apply Nat.leb_le. lia.
    + apply String.eqb_eq.
      replace (String.length p + String.length t - String.length t)%nat
        with (String.length p) by lia.
      rewrite substring_after_prefix. apply substring_whole.
Qed.

Lemma domainMatches_spec (n R : string) :
  domainMatches n R = true <-> spec_suffix_match n R.
Proof.
  unfold domainMatches, spec_suffix_match. rewrite andb_true_iff, orb_true_iff.
  rewrite !HasSuffix_spec, String.eqb_eq. split.
  - intros [_ [H | H]]; [by left | right]. exact H.
  - intros [-> | [p ->]].
    + split; [by exists ""%string | by left].
    + split; [| right; by exists p].
      exists (p ++ ".")%string. by rewrite append_assoc_str.
Qed.

(** C1: on every name and rule, the domain test of [nameMatches] holds
    iff the name equals the rule or ends with "." followed by the rule;
    [nameMatches] on a one-name certificate and a one-domain config
    reports a match exactly then, and the spec's three examples hold. *)
Theorem nameMatches_domain_rule :
  (forall n R : string,
     domainMatches n R = true <-> spec_suffix_match n R) /\
  (forall (n R : string) (inc : bool),
     (nameMatches (mkConfig [R] [] inc) [] (mkCertificate [n])).1.1 = true
     <-> spec_suffix_match n R) /\
  domainMatches "evilgoogle.com" "google.com" = false /\
  domainMatches "www.google.com" "google.com" = true /\
  domainMatches "google.com" "google.com" = true.
Proof.
  split; [exact domainMatches_spec |].
  split; [| vm_compute; done].
  intros n R inc. unfold nameMatches. simpl.
  rewrite <- domainMatches_spec.
  destruct (domainMatches n R); simpl; done.
Qed.

(** ** Advance step *)

(** C2: a log that grows from 10 to 15 entries: the task requests
    get-entries with start 11 and end 15 (RFC 6962 ends are inclusive),
    decodes the 4 entries 11..14 and sets the watermark to 15; a match at
    index 12 is written, a match at index 10 is never fetched. *)
Theorem processLog_advance_10_15 :
  processLog google_conf [] (env_of_log (sample_log 15 12)) (state_at 10) =
    ([EvGetSTH; EvGetRawEntries 11 15; EvDecode 11; EvDecode 12;
      EvPut 12 "www.google.com" true; EvDecode 13; EvDecode 14],
     Done (set_fetched (state_at 10) 15 1000)) /\
  processLog google_conf [] (env_of_log (sample_log 15 10)) (state_at 10) =
    ([EvGetSTH; EvGetRawEntries 11 15; EvDecode 11; EvDecode 12;
      EvDecode 13; EvDecode 14],
     Done (set_fetched (state_at 10) 15 1000)).
Proof. split; vm_compute; reflexivity. Qed.

(** ** Initialization *)

(** C3: a task whose watermark records no fetch never calls
    GetRawEntries; when the size query answers [size], it stores [size]
    with the current time and stops after that one query. *)
Theorem processLog_initialize (conf : Config) (pats : list Regexp)
    (env : LogEnv) (st : LogState) :
  LastFetched st = 0 ->
  (forall s e, ~ In (EvGetRawEntries s e) (processLog conf pats env st).1) /\
  (forall size, client_new_ok env = true -> get_sth env = Some size ->
     processLog conf pats env st =
       ([EvGetSTH], Done (set_fetched st size (now env)))).
Proof.
  intros H0. unfold processLog. rewrite H0. simpl.
  split.
  - destruct (client_new_ok env); simpl; [| tauto].
    destruct (get_sth env); simpl; intros s e [Hc | []]; discriminate.
  - intros size -> ->. reflexivity.
Qed.

Lemma processLog_initialize_witness :
  LastFetched (state_at 0) = 0 /\
  processLog google_conf [] (env_of_log (sample_log 15 12)) (state_at 0) =
    ([EvGetSTH], Done (set_fetched (state_at 0) 15 1000)).
Proof.
  split; [reflexivity |].
  apply (proj2 (processLog_initialize google_conf []
                  (env_of_log (sample_log 15 12)) (state_at 0) eq_refl));
    reflexivity.
Defined.

(** ** Soft failures *)

(** C5: when the size query fails, or the range fetch fails, the task's
    outcome is its input watermark, unchanged, and not a fatal error. *)
Theorem processLog_soft_failure (conf : Config) (pats : list Regexp)
    (env : LogEnv) (st : LogState) :
  client_new_ok env = true ->
  (get_sth env = None \/
   exists size, get_sth env = Some size /\ LastFetched st <> 0 /\
     size <> LastFetched st /\
     GetRawEntries env (toInt64 (u64 (LastFetched st + 1))) (toInt64 size)
       = None) ->
  (processLog conf pats env st).2 = Done st.
Proof.
  intros Hc Hf. unfold processLog. rewrite Hc. simpl.
  destruct Hf as [-> | (size & -> & Hn & Hs & Hg)]; [reflexivity |].
  apply Z.eqb_neq in Hn, Hs. rewrite Hn, Hs, Hg. reflexivity.
Qed.

Lemma processLog_soft_failure_witness :
  (processLog google_conf []
     (mkLogEnv true None (ct_get_entries []) plain_decode
        (fun _ => true) (fun _ => true) 1000) (state_at 10)).2
  = Done (state_at 10).
Proof.
  apply processLog_soft_failure; [reflexivity | left; reflexivity].
Defined.

(** ** The entry loop *)

Section Scan.
Variables (conf : Config) (pats : list Regexp) (env : LogEnv) (start : Z).

Lemma scan_cons_ok (k : nat) (e : RawEntry) (rest : list RawEntry) :
  (forall e, marshal_ok env e = true) -> (forall i, put_ok env i = true) ->
  scanEntries conf pats env start k (e :: rest) =
    (EvDecode (start + Z.of_nat k) ::
       match entry_match conf pats (decode env (start + Z.of_nat k) e) with
       | Some n => EvPut (start + Z.of_nat k) n true
                     :: (scanEntries conf pats env start (S k) rest).1
       | None => (scanEntries conf pats env start (S k) rest).1
       end,
     (scanEntries conf pats env start (S k) rest).2).
Proof.
  intros Hm Hp. simpl. unfold entry_match, cons_ev.
  destruct (decode env (start + Z.of_nat k) e) as [le|le|]; [| | reflexivity];
    (destruct (selectCert conf le) as [c|]; [| reflexivity]);
    destruct (nameMatches conf pats c) as [[[] n] d]; rewrite ?Hm, ?Hp;
    reflexivity.
Qed.

(** Whatever the writes do, the loop ends normally or on a failed
    artifact write (or its JSON encoding). *)
Lemma scan_result (k : nat) (es : list RawEntry) :
  (scanEntries conf pats env start k es).2 = None \/
  (scanEntries conf pats env start k es).2 = Some ErrPutObject \/
  (scanEntries conf pats env start k es).2 = Some ErrMarshal.
Proof.
  revert k. induction es as [|e rest IH]; intros k; simpl; [by left |].
  unfold cons_ev; simpl.
  destruct (decode env (start + Z.of_nat k) e) as [le|le|].
  all: try apply IH.
  all: destruct (selectCert conf le) as [c|]; try apply IH.
  all: destruct (nameMatches conf pats c) as [[[] n] d]; try apply IH.
  all: destruct (marshal_ok env e); try by right; right.
  all: destruct (put_ok env (start + Z.of_nat k)); try apply IH.
  all: by right; left.
Qed.

(** Every decode of the loop is at the index of a fetched entry. *)
Lemma scan_decode_inv (k : nat) (es : list RawEntry) (idx : Z) :
  In (EvDecode idx) (scanEntries conf pats env start k es).1 ->
  exists i, (i < List.length es)%nat /\ idx = start + Z.of_nat (k + i).
Proof.
  revert k. induction es as [|e rest IH]; intros k H; simpl in H; [done |].
  unfold cons_ev in H; simpl in H.
  destruct H as [H | H].
  { injection H as <-. exists 0%nat. simpl. split; [lia | f_equal; lia]. }
  assert (Hrest : In (EvDecode idx) (scanEntries conf pats env start (S k) rest).1
                  -> exists i, (i < List.length (e :: rest))%nat /\
                               idx = start + Z.of_nat (k + i)).
  { intros H'. destruct (IH (S k) H') as (i & Hi & ->).
    exists (S i). simpl. split; [lia | f_equal; lia]. }
  destruct (decode env (start + Z.of_nat k) e) as [le|le|].
  all: try by apply Hrest.
  all: destruct (selectCert conf le) as [c|]; try by apply Hrest.
  all: destruct (nameMatches conf pats c) as [[[] n] d]; try by apply Hrest.
  all: destruct (marshal_ok env e); [| done].
  all: destruct (put_ok env (start + Z.of_nat k)); simpl in H.
  all: destruct H as [H | H]; [done | by try apply Hrest].
Qed.

(** Every artifact write of the loop is for a fetched entry that
    decoded (cleanly or with a non-fatal error) and matched. *)
Lemma scan_put_inv (k : nat) (es : list RawEntry) (idx : Z) (n : string)
    (ok : bool) :
  In (EvPut idx n ok) (scanEntries conf pats env start k es).1 ->
  exists i e, es !! i = Some e /\ idx = start + Z.of_nat (k + i) /\
    entry_match conf pats (decode env idx e) = Some n.
Proof.
  revert k. induction es as [|e rest IH]; intros k H; simpl in H; [done |].
  unfold cons_ev in H; simpl in H.
  destruct H as [H | H]; [done |].
  assert (Hrest : In (EvPut idx n ok) (scanEntries conf pats env start (S k) rest).1
    -> exists i e', (e :: rest) !! i = Some e' /\ idx = start + Z.of_nat (k + i) /\
         entry_match conf pats (decode env idx e') = Some n).
  { intros H'. destruct (IH (S k) H') as (i & e' & Hi & -> & Hm).
    exists (S i), e'. simpl. split; [done |].
    replace (k + S i)%nat with (S k + i)%nat by lia. done. }
  assert (Hhere : forall le c d,
    decode env (start + Z.of_nat k) e = DecOk le \/
    decode env (start + Z.of_nat k) e = DecNonFatal le ->
    selectCert conf le = Some c -> nameMatches conf pats c = (true, n, d) ->
    exists i e', (e :: rest) !! i = Some e' /\
      start + Z.of_nat k = start + Z.of_nat (k + i) /\
      entry_match conf pats (decode env (start + Z.of_nat k) e') = Some n).
  { intros le c d Hd Hs Hn. exists 0%nat, e. simpl.
    split; [done | split; [f_equal; lia |]].
    unfold entry_match. destruct Hd as [-> | ->]; by rewrite Hs, Hn. }
  destruct (decode env (start + Z.of_nat k) e) as [le|le|] eqn:Hd.
  all: try by apply Hrest.
  all: destruct (selectCert conf le) as [c|] eqn:Hs; try by apply Hrest.
  all: destruct (nameMatches conf pats c) as [[[] n'] d] eqn:Hn;
    try by apply Hrest.
  all: destruct (marshal_ok env e); [| done].
  all: destruct (put_ok env (start + Z.of_nat k)); simpl in H.
  all: destruct H as [H | H]; [injection H as <- <- _ | try by apply Hrest].
  all: try (destruct H as []).
  all: eapply Hhere; eauto.
Qed.

(** With every write succeeding, the loop decodes every fetched entry,
    writes an artifact for every entry that matches, and ends normally. *)
Lemma scan_all_ok (k : nat) (es : list RawEntry) :
  (forall e, marshal_ok env e = true) -> (forall i, put_ok env i = true) ->
  (scanEntries conf pats env start k es).2 = None /\
  (forall i e, es !! i = Some e ->
     In (EvDecode (start + Z.of_nat (k + i)))
        (scanEntries conf pats env start k es).1 /\
     forall n, entry_match conf pats
                 (decode env (start + Z.of_nat (k + i)) e) = Some n ->
       In (EvPut (start + Z.of_nat (k + i)) n true)
          (scanEntries conf pats env start k es).1).
Proof.
  intros Hm Hp. revert k.
  induction es as [|e rest IH]; intros k; [split; [done | by intros i e' Hi]|].
  rewrite scan_cons_ok by done.
  destruct (IH (S k)) as [IHr IHi]. split; [exact IHr |].
  intros [|i] e' Hi; simpl in Hi.
  - injection Hi as <-. rewrite Nat.add_0_r. split; [by left |].
    intros n ->. right. by left.
  - replace (k + S i)%nat with (S k + i)%nat by lia.
    destruct (IHi i e' Hi) as [Hd Hput]. split.
    + right. destruct (entry_match conf pats (decode env (start + Z.of_nat k) e)); [by right | done].
    + intros n Hn. right. destruct (entry_match conf pats (decode env (start + Z.of_nat k) e)); [right |]; by apply Hput.
Qed.
End Scan.

(** ** One step of the entry loop, with any write outcome *)

Section ScanStep.
Variables (conf : Config) (pats : list Regexp) (env : LogEnv) (start : Z).

(** The four ways one iteration of the loop ends: no match (go on), a
    match written (go on), a match whose write fails (stop), or a match
    whose encoding fails (stop). *)
Lemma scan_step (k : nat) (e : RawEntry) (rest : list RawEntry) :
  let idx := start + Z.of_nat k in
  let r := scanEntries conf pats env start (S k) rest in
  (entry_match conf pats (decode env idx e) = None /\
   scanEntries conf pats env start k (e :: rest) = (EvDecode idx :: r.1, r.2)) \/
  exists n, entry_match conf pats (decode env idx e) = Some n /\
   ((marshal_ok env e = true /\ put_ok env idx = true /\
     scanEntries conf pats env start k (e :: rest)
       = (EvDecode idx :: EvPut idx n true :: r.1, r.2)) \/
    (marshal_ok env e = true /\ put_ok env idx = false /\
     scanEntries conf pats env start k (e :: rest)
       = ([EvDecode idx; EvPut idx n false], Some ErrPutObject)) \/
    (marshal_ok env e = false /\
     scanEntries conf pats env start k (e :: rest)
       = ([EvDecode idx], Some ErrMarshal))).
Proof.
  cbv zeta. simpl. unfold cons_ev, entry_match.
  destruct (decode env (start + Z.of_nat k) e) as [le|le|].
  3: { left. split; reflexivity. }
  all: destruct (selectCert conf le) as [cert|]; [| left; split; reflexivity].
  all: destruct (nameMatches conf pats cert) as [[[|] name] d];
    [| left; split; reflexivity].
  all: right; exists name; split; [reflexivity |].
  all: destruct (marshal_ok env e);
    [destruct (put_ok env (start + Z.of_nat k)) |].
  all: first [ left; split; [reflexivity | split; reflexivity]
             | right; left; split; [reflexivity | split; reflexivity]
             | right; right; split; reflexivity ].
Qed.

Ltac step_cases k e rest :=
  destruct (scan_step k e rest)
    as [[Hm Heq] | (n0 & Hm & [(Hma & Hpo & Heq) | [(Hma & Hpo & Heq) | (Hma & Heq)]])];
  rewrite Heq; simpl.

(** The first entry of a non-empty batch is always decoded. *)
Lemma scan_first_decoded (k : nat) (e : RawEntry) (rest : list RawEntry) :
  In (EvDecode (start + Z.of_nat k))
     (scanEntries conf pats env start k (e :: rest)).1.
Proof. step_cases k e rest; by left. Qed.

(** After an entry that fails to decode fatally, the loop goes on with
    the next entry. *)
Lemma scan_fatal_continues (k i : nat) (es : list RawEntry) (e e' : RawEntry) :
  es !! i = Some e -> es !! S i = Some e' ->
  In (EvDecode (start + Z.of_nat (k + i)))
     (scanEntries conf pats env start k es).1 ->
  decode env (start + Z.of_nat (k + i)) e = DecFatal ->
  In (EvDecode (start + Z.of_nat (k + S i)))
     (scanEntries conf pats env start k es).1.
Proof.
  revert k i. induction es as [|e0 rest IH]; intros k i Hi Hi' Hin Hd; [done |].
  destruct i as [|i].
  - simpl in Hi, Hi'. injection Hi as <-.
    destruct rest as [|e1 rest']; [done |].
    rewrite Nat.add_0_r in Hd.
    destruct (scan_step k e0 (e1 :: rest')) as [[_ Heq] | (n0 & Hm & _)].
    + rewrite Heq. simpl. right.
      replace (k + 1)%nat with (S k) by lia. apply scan_first_decoded.
    + unfold entry_match in Hm. by rewrite Hd in Hm.
  - simpl in Hi, Hi'.
    step_cases k e0 rest.
    all: rewrite Heq in Hin; simpl in Hin; destruct Hin as [Hin | Hin];
      try (injection Hin as Hin; lia).
    all: try (destruct Hin as [Hin | Hin]; [discriminate |]).
    all: try (destruct Hin as [Hin | []]; discriminate).
    all: try contradiction.
    all: try (right; try right;
              replace (k + S (S i))%nat with (S k + S i)%nat by lia;
              apply (IH (S k) i Hi Hi'); [| by replace (k + S i)%nat with (S k + i)%nat in Hd by lia];
              replace (S k + i)%nat with (k + S i)%nat by lia; exact Hin).
Qed.

(** A decoded entry that matches is encoded and written, or its encoding
    fails and the loop stops with that error. *)
Lemma scan_match_written (k i : nat) (es : list RawEntry) (e : RawEntry)
    (n : string) :
  es !! i = Some e ->
  In (EvDecode (start + Z.of_nat (k + i)))
     (scanEntries conf pats env start k es).1 ->
  entry_match conf pats (decode env (start + Z.of_nat (k + i)) e) = Some n ->
  (marshal_ok env e = true /\
   In (EvPut (start + Z.of_nat (k + i)) n (put_ok env (start + Z.of_nat (k + i))))
      (scanEntries conf pats env start k es).1) \/
  (marshal_ok env e = false /\
   (scanEntries conf pats env start k es).2 = Some ErrMarshal).
Proof.
  revert k i. induction es as [|e0 rest IH]; intros k i Hi Hin Hmatch; [done |].
  destruct i as [|i].
  - simpl in Hi. injection Hi as <-. rewrite Nat.add_0_r in Hin, Hmatch |- *.
    step_cases k e0 rest; rewrite Hmatch in Hm; try discriminate.
    all: injection Hm as <-.
    + left. rewrite Hpo. split; [done | right; by left].
    + left. rewrite Hpo. split; [done | right; by left].
    + right. done.
  - simpl in Hi.
    assert (Hidx : forall j, start + Z.of_nat (k + S i) <> start + Z.of_nat (k + 0 * j))
      by (intros j; lia).
    replace (k + S i)%nat with (S k + i)%nat in Hin, Hmatch |- * by lia.
    step_cases k e0 rest.
    all: rewrite Heq in Hin; simpl in Hin; destruct Hin as [Hin | Hin];
      try (injection Hin as Hin; lia).
    all: try (destruct Hin as [Hin | Hin]; [discriminate |]).
    all: try (destruct Hin as [Hin | []]; discriminate).
    all: try contradiction.
    all: destruct (IH (S k) i Hi Hin Hmatch) as [[H1 H2] | [H1 H2]];
      [left; split; [done | right; try right; exact H2]
      | right; split; [done | exact H2]].
Qed.

(** A failed write stops the loop with a fatal error. *)
Lemma scan_failed_put_fatal (k : nat) (es : list RawEntry) (idx : Z)
    (n : string) :
  In (EvPut idx n false) (scanEntries conf pats env start k es).1 ->
  (scanEntries conf pats env start k es).2 = Some ErrPutObject.
Proof.
  revert k. induction es as [|e0 rest IH]; intros k Hin; [done |].
  step_cases k e0 rest; rewrite Heq in Hin; simpl in Hin.
  all: try reflexivity.
  all: destruct Hin as [Hin | Hin]; [discriminate |].
  all: try (destruct Hin as [Hin | Hin]; [discriminate |]).
  all: try contradiction.
  all: exact (IH (S k) Hin).
Qed.

(** A fatal write error comes from a failed write in the trace; a fatal
    encoding error comes from a decoded, matching entry whose encoding
    failed. *)
Lemma scan_fatal_cause (k : nat) (es : list RawEntry) :
  ((scanEntries conf pats env start k es).2 = Some ErrPutObject ->
   exists idx n, In (EvPut idx n false) (scanEntries conf pats env start k es).1 /\
                 put_ok env idx = false) /\
  ((scanEntries conf pats env start k es).2 = Some ErrMarshal ->
   exists i e n, es !! i = Some e /\
     In (EvDecode (start + Z.of_nat (k + i))) (scanEntries conf pats env start k es).1 /\
     entry_match conf pats (decode env (start + Z.of_nat (k + i)) e) = Some n /\
     marshal_ok env e = false).
Proof.
  revert k. induction es as [|e0 rest IH]; intros k; [split; discriminate |].
  destruct (IH (S k)) as [IH1 IH2].
  step_cases k e0 rest.
  1, 2: split;
    [ intros H; destruct (IH1 H) as (idx & n & Hin & Hp);
      exists idx, n; split; [right; try right; exact Hin | exact Hp]
    | intros H; destruct (IH2 H) as (i & e & n & Hi & Hin & Hmt & Hmk);
      exists (S i), e, n; split; [done |];
      replace (k + S i)%nat with (S k + i)%nat by lia;
      split; [right; try right; exact Hin | split; done] ].
  - split; [intros _; exists (start + Z.of_nat k), n0; split;
            [right; by left | done] | discriminate].
  - split; [discriminate |]. intros _. exists 0%nat, e0, n0.
    rewrite Nat.add_0_r. split; [done | split; [by left | split; done]].
Qed.

End ScanStep.

(** ** Advance step: decode errors *)

Lemma processLog_advance_eq (conf : Config) (pats : list Regexp)
    (env : LogEnv) (st : LogState) (size : Z) (es : list RawEntry) :
  client_new_ok env = true -> get_sth env = Some size ->
  LastFetched st <> 0 -> size <> LastFetched st ->
  GetRawEntries env (toInt64 (u64 (LastFetched st + 1))) (toInt64 size)
    = Some es ->
  processLog conf pats env st =
    (EvGetSTH :: EvGetRawEntries (toInt64 (u64 (LastFetched st + 1)))
                                 (toInt64 size)
       :: (scanEntries conf pats env (toInt64 (u64 (LastFetched st + 1))) 0 es).1,
     match (scanEntries conf pats env
              (toInt64 (u64 (LastFetched st + 1))) 0 es).2 with
     | Some e => Fatal e
     | None => Done (set_fetched st size (now env))
     end).
Proof.
  intros Hc Hs Hn Hne Hg. unfold processLog.
  rewrite Hc, Hs. simpl.
  apply Z.eqb_neq in Hn, Hne. rewrite Hn, Hne, Hg. reflexivity.
Qed.

(** C4 (as amended): in the advance step the first fetched entry is
    decoded; after an entry whose decode error is fatal no artifact is
    written for it and the loop goes on with the next entry; an entry
    decoded with a non-fatal error is matched like a clean one, so a
    match is encoded and written.  The outcome advances the watermark to
    the current size, unless an artifact write or its JSON encoding fails
    (as the trace or the environment shows), and such a failure always
    makes the outcome a fatal error. *)
Theorem processLog_decode_errors (conf : Config) (pats : list Regexp)
    (env : LogEnv) (st : LogState) (size : Z) (es : list RawEntry) :
  client_new_ok env = true -> get_sth env = Some size ->
  LastFetched st <> 0 -> size <> LastFetched st ->
  GetRawEntries env (toInt64 (u64 (LastFetched st + 1))) (toInt64 size)
    = Some es ->
  let start := toInt64 (u64 (LastFetched st + 1)) in
  let tr := (processLog conf pats env st).1 in
  let out := (processLog conf pats env st).2 in
  (out = Done (set_fetched st size (now env)) \/
   (out = Fatal ErrPutObject /\
    exists idx n, In (EvPut idx n false) tr /\ put_ok env idx = false) \/
   (out = Fatal ErrMarshal /\
    exists i e n, es !! i = Some e /\ In (EvDecode (start + Z.of_nat i)) tr /\
      entry_match conf pats (decode env (start + Z.of_nat i) e) = Some n /\
      marshal_ok env e = false)) /\
  (forall idx n, In (EvPut idx n false) tr -> out = Fatal ErrPutObject) /\
  (forall e, es !! 0%nat = Some e -> In (EvDecode start) tr) /\
  (forall (i : nat) (e : RawEntry), es !! i = Some e ->
   In (EvDecode (start + Z.of_nat i)) tr ->
   (entry_match conf pats (decode env (start + Z.of_nat i) e) <> None ->
      marshal_ok env e = false -> out = Fatal ErrMarshal) /\
   (decode env (start + Z.of_nat i) e = DecFatal ->
      (forall n ok, ~ In (EvPut (start + Z.of_nat i) n ok) tr) /\
      (forall e', es !! S i = Some e' -> In (EvDecode (start + Z.of_nat (S i))) tr)) /\
   (forall le n, decode env (start + Z.of_nat i) e = DecNonFatal le ->
      entry_match conf pats (DecOk le) = Some n -> marshal_ok env e = true ->
      In (EvPut (start + Z.of_nat i) n (put_ok env (start + Z.of_nat i))) tr)).
Proof.
  intros Hc Hs Hn Hne Hg start tr out.
  subst tr out.
  rewrite (processLog_advance_eq conf pats env st size es) by done.
  fold start. simpl.
  destruct (scan_fatal_cause conf pats env start 0 es) as [Hc1 Hc2].
  split; [| split; [| split]].
  - destruct (scan_result conf pats env start 0 es) as [Hr | [Hr | Hr]];
      rewrite Hr; [by left | right; left | right; right].
    + split; [done |]. destruct (Hc1 Hr) as (idx & n & Hin & Hp).
      exists idx, n. split; [right; by right | done].
    + split; [done |]. destruct (Hc2 Hr) as (i & e & n & Hi & Hin & Hmt & Hmk).
      exists i, e, n. split; [done | split; [right; by right | done]].
  - intros idx n [H | [H | H]]; try discriminate.
    by rewrite (scan_failed_put_fatal conf pats env start 0 es idx n H).
  - intros e H0. right. right.
    destruct es as [|e0 rest]; [done |].
    pose proof (scan_first_decoded conf pats env start 0 e0 rest) as H.
    by rewrite Z.add_0_r in H.
  - intros i e Hi [H | [H | Hin]]; try discriminate.
    split; [| split].
    + intros Hmt Hmk.
      destruct (entry_match conf pats (decode env (start + Z.of_nat i) e))
        as [n|] eqn:Hm; [| done].
      destruct (scan_match_written conf pats env start 0 i es e n Hi Hin Hm)
        as [[Hmk' _] | [_ Hr]]; [congruence | by rewrite Hr].
    + intros Hfatal. split.
      * intros n ok [H | [H | H]]; try discriminate.
        destruct (scan_put_inv conf pats env start 0 es _ n ok H)
          as (j & e' & Hj & Hidx & Hmatch).
        simpl in Hidx. assert (j = i) as -> by lia.
        rewrite Hi in Hj. injection Hj as <-.
        rewrite Hfatal in Hmatch. discriminate.
      * intros e' Hi'. right. right.
        exact (scan_fatal_continues conf pats env start 0 i es e e' Hi Hi' Hin Hfatal).
    + intros le n Hnf Hmt Hmk. right. right.
      assert (Hm : entry_match conf pats (decode env (start + Z.of_nat (0 + i)) e)
                   = Some n) by (simpl; by rewrite Hnf).
      destruct (scan_match_written conf pats env start 0 i es e n Hi Hin Hm)
        as [[_ H] | [Hmk' _]]; [exact H | congruence].
Qed.

(** In the log of [decode_error_env], entry 11 fails fatally and entry 12
    is still decoded. *)
Lemma processLog_decode_errors_witness :
  In (EvDecode 12) (processLog google_conf [] decode_error_env (state_at 10)).1.
Proof.
  destruct (processLog_decode_errors google_conf [] decode_error_env
              (state_at 10) 13
              [mkRawEntry "!garbage"; mkRawEntry "~www.google.com"]
              eq_refl eq_refl ltac:(simpl; lia) ltac:(simpl; lia) eq_refl)
    as (_ & _ & Hfirst & Hentry).
  exact (proj2 (proj1 (proj2 (Hentry 0%nat _ eq_refl (Hfirst _ eq_refl)))
                  eq_refl) _ eq_refl).
Defined.

(** C4 as stated fails: entry 11 fails to decode fatally, yet entry 12 is
    still processed; entry 12 decodes with a non-fatal error, yet it is
    not skipped: it matches and its artifact is written. *)
Lemma processLog_decode_errors_counterexample :
  tagged_decode 11 (mkRawEntry "!garbage") = DecFatal /\
  (exists le, tagged_decode 12 (mkRawEntry "~www.google.com") = DecNonFatal le) /\
  processLog google_conf [] decode_error_env (state_at 10) =
    ([EvGetSTH; EvGetRawEntries 11 13; EvDecode 11; EvDecode 12;
      EvPut 12 "www.google.com" true],
     Done (set_fetched (state_at 10) 13 1000)).
Proof. split; [reflexivity | split; [eexists; reflexivity | vm_compute; reflexivity]]. Qed.

(** ** The run coordinator *)

Lemma perm3_cases {A : Type} (a b c : A) (l : list A) :
  Permutation [a; b; c] l ->
  l = [a; b; c] \/ l = [a; c; b] \/ l = [b; a; c] \/
  l = [b; c; a] \/ l = [c; a; b] \/ l = [c; b; a].
Proof.
  intros H.
  destruct (Permutation_vs_cons_inv (Permutation_sym H)) as (l1 & l2 & ->).
  apply Permutation_cons_app_inv, Permutation_length_2_inv in H.
  destruct H as [H | H];
    destruct l1 as [|x [|y [|z l1]]]; simpl in H; simplify_eq/=;
    try (destruct l1; discriminate); naive_solver.
Qed.

(** Whatever order the loaders' first messages arrive in, the load loop
    yields the three results, or fails when the config or the log list
    fails to load. *)
Lemma load_loop_perm (obj : StateObject) (w : World) (msgs : list LoadMsg) :
  Permutation (load_msgs obj w) msgs ->
  (forall c l, config_object w = Some c -> log_list w = Some l ->
     load_loop 3 msgs None None None =
       inr (Some c,
            Some (match fetchLogState (state_get_ok w) obj with
                  | Some m => m
                  | None => ∅
                  end),
            Some l)) /\
  (config_object w = None \/ log_list w = None ->
     exists e, load_loop 3 msgs None None None = inl e).
Proof.
  unfold load_msgs. intros H.
  destruct (config_object w) as [c|], (log_list w) as [l|];
    apply perm3_cases in H;
    destruct H as [-> | [-> | [-> | [-> | [-> | ->]]]]]; simpl;
    (split; [intros ? ? Hc Hl; simplify_eq; reflexivity
            | intros [Hc | Hl]; simplify_eq; eauto]).
Qed.

Lemma Handler_load_failed (obj : StateObject) (w : World) (e : Err) :
  load_loop 3 (load_sched w (load_msgs obj w)) None None None = inl e ->
  exists e', Handler obj w = ([], RunFatal e').
Proof.
  intros H. unfold Handler.
  destruct (String.eqb _ _); [eauto |].
  destruct (negb _); [eauto |].
  rewrite H. eauto.
Qed.

Lemma collect_fatal (states : LogStates) (results : list Outcome) (e : Err) :
  In (Fatal e) results -> exists e', collect states results = inl e'.
Proof.
  revert states. induction results as [|r rest IH]; intros states H;
    [done |].
  destruct H as [-> | H]; [simpl; eauto |].
  destruct r as [st | e']; simpl; [by apply IH | eauto].
Qed.

Lemma compilePatterns_fail (compile : string -> option Regexp)
    (ps : list string) (p : string) :
  In p ps -> compile p = None -> exists e, compilePatterns compile ps = inl e.
Proof.
  intros Hin Hp. induction ps as [|q rest IH]; [done |].
  simpl. destruct Hin as [-> | Hin]; [rewrite Hp; eauto |].
  destruct (compile q); [| eauto].
  destruct (IH Hin) as [e ->]. eauto.
Qed.

(** C6: when a sync task's artifact write fails, the run fails, whatever
    order the task results arrive in, and the state file is never
    written: no watermark of any log is persisted by that run. *)
Theorem Handler_artifact_write_fatal (obj : StateObject) (w : World)
    (conf : Config) (states : LogStates) (ll : LogList)
    (pats : list Regexp) (st : LogState) :
  (forall l, Permutation l (result_sched w l)) ->
  load_loop 3 (load_sched w (load_msgs obj w)) None None None
    = inr (Some conf, Some states, Some ll) ->
  compilePatterns (compile w) (Patterns conf) = inr pats ->
  In st (launchTasks states ll) ->
  (processLog conf pats (log_env w (URL st)) st).2 = Fatal ErrPutObject ->
  (exists e, (Handler obj w).2 = RunFatal e) /\
  (forall m, ~ In (HSaveState m) (Handler obj w).1).
Proof.
  intros Hperm Hload Hcomp Hin Hfatal. unfold Handler.
  destruct (String.eqb _ _); [split; [eauto | simpl; tauto] |].
  destruct (negb _); [split; [eauto | simpl; tauto] |].
  rewrite Hload, Hcomp. cbv beta zeta.
  destruct (collect_fatal states
              (result_sched w (map (fun st0 =>
                 (processLog conf pats (log_env w (URL st0)) st0).2)
                 (launchTasks states ll))) ErrPutObject) as [e' He'].
  { eapply Permutation_in; [apply Hperm |].
    apply in_map_iff. eauto. }
  rewrite He'. split; [eauto |].
  intros m Hm. apply in_map_iff in Hm as (? & ? & _). discriminate.
Qed.

Lemma Handler_artifact_write_fatal_witness :
  exists e,
    (Handler (stored_at 10)
       (sample_world google_conf accept_all true failing_put_env)).2
    = RunFatal e.
Proof.
  refine (proj1 (Handler_artifact_write_fatal (stored_at 10)
            (sample_world google_conf accept_all true failing_put_env)
            google_conf {[ monitored_url := state_at 10 ]} one_log_list []
            (state_at 10) (fun l => Permutation_refl l) eq_refl eq_refl _ _)).
  - simpl. left. reflexivity.
  - vm_compute. reflexivity.
Defined.

(** C7: when a configured pattern fails to compile, the run fails before
    any sync task runs: no log is contacted. *)
Theorem Handler_bad_pattern (obj : StateObject) (w : World)
    (conf : Config) (states : LogStates) (ll : LogList) (p : string) :
  load_loop 3 (load_sched w (load_msgs obj w)) None None None
    = inr (Some conf, Some states, Some ll) ->
  In p (Patterns conf) -> compile w p = None ->
  (exists e, (Handler obj w).2 = RunFatal e) /\ (Handler obj w).1 = [].
Proof.
  intros Hload Hin Hp. unfold Handler.
  destruct (String.eqb _ _); [split; [eauto | done] |].
  destruct (negb _); [split; [eauto | done] |].
  rewrite Hload.
  destruct (compilePatterns_fail (compile w) (Patterns conf) p Hin Hp) as [e ->].
  split; [eauto | done].
Qed.

Lemma Handler_bad_pattern_witness :
  (Handler (stored_at 10)
     (sample_world (mkConfig ["google.com"] ["^www.*"; "("] false)
        reject_paren true (env_of_log (sample_log 15 12)))).1 = [].
Proof.
  refine (proj2 (Handler_bad_pattern _ _
            (mkConfig ["google.com"] ["^www.*"; "("] false)
            {[ monitored_url := state_at 10 ]} one_log_list "(" _ _ _)).
  - vm_compute. reflexivity.
  - simpl. right. left. reflexivity.
  - reflexivity.
Defined.

(** C8: when the state file is missing or cannot be read or decoded, the
    run goes on from an empty map, whatever order the loaders finish in,
    and every sync task then starts from a zero watermark (so it
    re-initializes); a config or log-list failure fails the run before
    any task runs. *)
Theorem Handler_state_load_failure (obj : StateObject) (w : World) :
  (forall l, Permutation l (load_sched w l)) ->
  fetchLogState (state_get_ok w) obj = None ->
  (forall conf ll, config_object w = Some conf -> log_list w = Some ll ->
     load_loop 3 (load_sched w (load_msgs obj w)) None None None
       = inr (Some conf, Some ∅, Some ll) /\
     forall st, In st (launchTasks ∅ ll) -> LastFetched st = 0) /\
  (config_object w = None \/ log_list w = None ->
     exists e, Handler obj w = ([], RunFatal e)).
Proof.
  intros Hperm Hfetch.
  destruct (load_loop_perm obj w _ (Hperm (load_msgs obj w))) as [Hok Hbad].
  split.
  - intros conf ll Hc Hl. rewrite (Hok conf ll Hc Hl), Hfetch.
    split; [reflexivity |].
    intros st Hin. unfold launchTasks in Hin.
    apply in_flat_map in Hin as (op & _ & Hin).
    apply in_map_iff in Hin as (lg & <- & _).
    unfold initialState. rewrite lookup_empty. reflexivity.
  - intros Hfail. destruct (Hbad Hfail) as [e He].
    by apply (Handler_load_failed obj w e).
Qed.

Lemma Handler_state_load_failure_witness :
  load_loop 3
    (load_sched (sample_world google_conf accept_all false unreachable_env)
       (load_msgs (stored_at 10)
          (sample_world google_conf accept_all false unreachable_env)))
    None None None
  = inr (Some google_conf, Some ∅, Some one_log_list).
Proof.
  exact (proj1 (proj1 (Handler_state_load_failure (stored_at 10)
           (sample_world google_conf accept_all false unreachable_env)
           (fun l => Permutation_refl l) eq_refl)
           google_conf one_log_list eq_refl eq_refl)).
Defined.

(** ** Watermark monotonicity *)

Lemma processLog_url (conf : Config) (pats : list Regexp) (env : LogEnv)
    (st st' : LogState) :
  (processLog conf pats env st).2 = Done st' -> URL st' = URL st.
Proof.
  unfold processLog.
  destruct (client_new_ok env); simpl; [| discriminate].
  destruct (get_sth env) as [ts|]; simpl; [| by intros [= <-]].
  destruct (LastFetched st =? 0); simpl; [by intros [= <-] |].
  destruct (ts =? LastFetched st); simpl; [by intros [= <-] |].
  destruct (GetRawEntries _ _ _); simpl; [| by intros [= <-]].
  destruct (scanEntries _ _ _ _ _ _).2; [discriminate | by intros [= <-]].
Qed.

(** The range fetch refuses to go backwards: the client rejects an end
    below the start. *)
Lemma GetRawEntries_backwards (env : LogEnv) (lf ts : Z) :
  0 <= lf < 2 ^ 63 - 1 -> ts < lf ->
  GetRawEntries env (toInt64 (u64 (lf + 1))) (toInt64 ts) = None.
Proof.
  intros Hlf Hts. unfold GetRawEntries, toInt64, u64.
  rewrite Z.mod_small by lia.
  destruct (Z.ltb_spec (lf + 1) (2 ^ 63)); [| lia].
  destruct (Z.ltb_spec ts (2 ^ 63)); [| lia].
  destruct (Z.ltb_spec ts 0); [reflexivity |].
  destruct (Z.ltb_spec ts (lf + 1)); [reflexivity | lia].
Qed.

(** A sync task never lowers the watermark it was given, as long as that
    watermark fits the int64 arithmetic of the range fetch. *)
Lemma processLog_monotone (conf : Config) (pats : list Regexp)
    (env : LogEnv) (st st' : LogState) :
  0 <= LastFetched st < 2 ^ 63 - 1 ->
  (forall ts, get_sth env = Some ts -> 0 <= ts) ->
  (processLog conf pats env st).2 = Done st' ->
  LastFetched st <= LastFetched st'.
Proof.
  intros Hlf Hts. unfold processLog.
  destruct (client_new_ok env); simpl; [| discriminate].
  destruct (get_sth env) as [ts|] eqn:Hs; simpl; [| intros [= <-]; lia].
  specialize (Hts ts eq_refl).
  destruct (LastFetched st =? 0) eqn:H0; simpl.
  { intros [= <-]. apply Z.eqb_eq in H0. simpl. lia. }
  destruct (ts =? LastFetched st) eqn:H1; simpl; [intros [= <-]; lia |].
  destruct (Z.lt_ge_cases ts (LastFetched st)) as [Hlt | Hge].
  - rewrite GetRawEntries_backwards by lia. simpl. intros [= <-]. lia.
  - destruct (GetRawEntries _ _ _); simpl; [| intros [= <-]; lia].
    destruct (scanEntries _ _ _ _ _ _).2; [discriminate |].
    intros [= <-]. simpl. lia.
Qed.

Lemma collect_monotone (m : LogStates) (results : list Outcome) :
  (forall st', In (Done st') results -> forall s,
     m !! URL st' = Some s -> LastFetched s <= LastFetched st') ->
  forall states final, collect states results = inr final ->
  (forall k s, m !! k = Some s ->
     exists s', states !! k = Some s' /\ LastFetched s <= LastFetched s') ->
  forall k s, m !! k = Some s ->
    exists s', final !! k = Some s' /\ LastFetched s <= LastFetched s'.
Proof.
  induction results as [|r rest IH]; intros Hres states final Hcol Hinv.
  - simpl in Hcol. injection Hcol as <-. exact Hinv.
  - destruct r as [st' | e]; simpl in Hcol; [| discriminate].
    apply (IH (fun st'' H => Hres st'' (or_intror H)) _ final Hcol).
    intros k s Hk. destruct (decide (URL st' = k)) as [<- | Hne].
    + rewrite lookup_insert_eq. exists st'. split; [done |].
      apply (Hres st' (or_introl eq_refl) s Hk).
    + rewrite lookup_insert_ne by done. by apply Hinv.
Qed.

(** C9 as stated fails: the state file held watermark 100 for the log;
    the next run cannot read the file and the log's size query fails, so
    the run persists watermark 0 for it. *)
Lemma watermark_reset_counterexample :
  fetchLogState true (stored_at 100)
    = Some {[ monitored_url := state_at 100 ]} /\
  LastFetched (state_at 100) = 100 /\
  Handler (stored_at 100)
    (sample_world google_conf accept_all false unreachable_env) =
    ([HTask monitored_url [EvGetSTH];
      HSaveState {[ monitored_url :=
                      mkLogState monitored_url "Example" "example log" 0 0 ]}],
     RunOk).
Proof. split; [reflexivity | split; [reflexivity | vm_compute; reflexivity]]. Qed.

(** C9 (as amended): in a run whose state file loads, every log's
    persisted watermark is at least the one loaded for it, whatever the
    arrival order of the task results, provided the loaded watermarks
    are below 2^63 - 1 and the file maps each URL to its own state (as
    the handler writes it). *)
Theorem Handler_watermark_monotone (obj : StateObject) (w : World)
    (m : LogStates) :
  (forall l, Permutation l (load_sched w l)) ->
  (forall l, Permutation l (result_sched w l)) ->
  fetchLogState (state_get_ok w) obj = Some m ->
  (forall k s, m !! k = Some s -> URL s = k /\ 0 <= LastFetched s < 2 ^ 63 - 1) ->
  (forall url ts, get_sth (log_env w url) = Some ts -> 0 <= ts) ->
  forall final, In (HSaveState final) (Handler obj w).1 ->
  forall k s, m !! k = Some s ->
    exists s', final !! k = Some s' /\ LastFetched s <= LastFetched s'.
Proof.
  intros Hlperm Hrperm Hfetch Hwf Hsth final Hsaved.
  destruct (load_loop_perm obj w _ (Hlperm (load_msgs obj w))) as [Hok Hbad].
  unfold Handler in Hsaved.
  destruct (String.eqb _ _); [done |].
  destruct (negb _); [done |].
  destruct (config_object w) as [conf|] eqn:Hc;
    [| destruct (Hbad (or_introl eq_refl)) as [e He]; by rewrite He in Hsaved].
  destruct (log_list w) as [ll|] eqn:Hl;
    [| destruct (Hbad (or_intror eq_refl)) as [e He]; by rewrite He in Hsaved].
  rewrite (Hok conf ll eq_refl eq_refl), Hfetch in Hsaved.
  destruct (compilePatterns (compile w) (Patterns conf)) as [e | pats];
    [done |].
  cbv beta zeta in Hsaved.
  assert (Hnotask : forall tasks (f : LogState -> list Event),
            ~ In (HSaveState final) (map (fun st => HTask (URL st) (f st)) tasks)).
  { intros tasks f Hin. apply in_map_iff in Hin as (? & ? & _). discriminate. }
  destruct (collect m _) as [e | final'] eqn:Hcol;
    [by apply Hnotask in Hsaved |].
  destruct (put_state_ok w); [| by apply Hnotask in Hsaved].
  apply in_app_or in Hsaved as [Hsaved | [Hsaved | []]];
    [by apply Hnotask in Hsaved |].
  injection Hsaved as ->.
  refine (collect_monotone m _ _ m final Hcol _).
  - intros st' Hin s Hs.
    apply (Permutation_in _ (Permutation_sym (Hrperm _))) in Hin.
    apply in_map_iff in Hin as (st & Hrun & Hin).
    unfold launchTasks in Hin.
    apply in_flat_map in Hin as (op & _ & Hin).
    apply in_map_iff in Hin as (lg & <- & _).
    rewrite (processLog_url _ _ _ _ _ Hrun) in Hs.
    unfold initialState in Hs, Hrun |- *.
    destruct (m !! log_url lg) as [s0|] eqn:Hs0; [| simpl in Hs; congruence].
    destruct (Hwf _ _ Hs0) as [Hurl Hbound].
    rewrite Hurl, Hs0 in Hs. injection Hs as ->.
    eapply processLog_monotone; [exact Hbound | | exact Hrun].
    apply Hsth.
  - intros k s Hk. exists s. split; [done | lia].
Qed.

Lemma Handler_watermark_monotone_witness :
  exists s', ({[ monitored_url := set_fetched (state_at 10) 15 1000 ]}
                : gmap string LogState) !! monitored_url = Some s' /\
             LastFetched (state_at 10) <= LastFetched s'.
Proof.
  refine (Handler_watermark_monotone (stored_at 10)
            (sample_world google_conf accept_all true
               (env_of_log (sample_log 15 12)))
            {[ monitored_url := state_at 10 ]}
            (fun l => Permutation_refl l) (fun l => Permutation_refl l)
            eq_refl _ _ _ _ monitored_url (state_at 10) _).
  - intros k s Hk. apply lookup_singleton_Some in Hk as [<- <-].
    split; [reflexivity | simpl; lia].
  - intros url ts Hts. simpl in Hts. injection Hts as <-. lia.
  - vm_compute. right. left. reflexivity.
  - reflexivity.
Defined.

(** ** Truncated batches *)

Lemma processLog_decode_inv (conf : Config) (pats : list Regexp)
    (env : LogEnv) (st : LogState) (idx : Z) :
  In (EvDecode idx) (processLog conf pats env st).1 ->
  LastFetched st <> 0 /\ toInt64 (u64 (LastFetched st + 1)) <= idx.
Proof.
  unfold processLog.
  destruct (client_new_ok env); simpl; [| done].
  destruct (get_sth env) as [ts|]; simpl; [| intros [H | []]; discriminate].
  destruct (LastFetched st =? 0) eqn:H0; simpl;
    [intros [H | []]; discriminate |].
  destruct (ts =? LastFetched st); simpl; [intros [H | []]; discriminate |].
  apply Z.eqb_neq in H0.
  destruct (GetRawEntries _ _ _) as [es|]; simpl;
    [| intros [H | [H | []]]; discriminate].
  intros [H | [H | H]]; try discriminate.
  destruct (scan_decode_inv conf pats env _ 0 es idx H) as (i & _ & ->).
  split; [done | lia].
Qed.

Lemma processLog_next (conf : Config) (pats : list Regexp) (env : LogEnv)
    (st st' : LogState) :
  (processLog conf pats env st).2 = Done st' ->
  LastFetched st' = LastFetched st \/
  exists ts, get_sth env = Some ts /\ LastFetched st' = ts.
Proof.
  unfold processLog.
  destruct (client_new_ok env); simpl; [| discriminate].
  destruct (get_sth env) as [ts|]; simpl; [| intros [= <-]; by left].
  destruct (LastFetched st =? 0); simpl; [intros [= <-]; right; eauto |].
  destruct (ts =? LastFetched st); simpl; [intros [= <-]; by left |].
  destruct (GetRawEntries _ _ _); simpl; [| intros [= <-]; by left].
  destruct (scanEntries _ _ _ _ _ _).2; [discriminate |].
  intros [= <-]. right. eauto.
Qed.

(** Once a log's watermark has reached [size], no later run decodes an
    entry at an index up to [size], while the log never reports a
    smaller size. *)
Lemma later_runs_no_rewind (conf : Config) (pats : list Regexp) (size : Z)
    (runs : list (bool * LogEnv)) :
  0 <= size ->
  (forall loaded env, In (loaded, env) runs ->
     forall ts, get_sth env = Some ts -> size <= ts < 2 ^ 63 - 1) ->
  forall st, LastFetched st = 0 \/ size <= LastFetched st < 2 ^ 63 - 1 ->
  forall tr idx, In tr (later_runs conf pats st runs) ->
    In (EvDecode idx) tr -> size < idx.
Proof.
  intros Hsize. induction runs as [|[loaded env] rest IH];
    intros Hruns st Hst tr idx Htr Hidx; [done |].
  set (input := if loaded then st
                else mkLogState (URL st) (Operator st) (Description st) 0 0).
  assert (Hin : LastFetched input = 0 \/
                size <= LastFetched input < 2 ^ 63 - 1)
    by (subst input; destruct loaded; [exact Hst | by left]).
  simpl in Htr. fold input in Htr.
  destruct Htr as [<- | Htr].
  - destruct (processLog_decode_inv conf pats env input idx Hidx) as [Hnz Hge].
    destruct Hin as [Hin | Hin]; [done |].
    unfold toInt64, u64 in Hge. rewrite Z.mod_small in Hge by lia.
    destruct (Z.ltb_spec (LastFetched input + 1) (2 ^ 63)); lia.
  - refine (IH (fun l e H => Hruns l e (or_intror H)) _ _ tr idx Htr Hidx).
    destruct (processLog conf pats env input).2 as [st' | e] eqn:Hout;
      [| exact Hst].
    destruct (processLog_next conf pats env input st' Hout)
      as [-> | (ts & Hts & ->)]; [exact Hin |].
    right. exact (Hruns loaded env (or_introl eq_refl) ts Hts).
Qed.

(** C10: once the single range fetch succeeds, the task's outcome (unless
    an artifact write fails) sets the watermark to the current size
    whatever the number of entries the log returned; only the returned
    entries are decoded; and, the log never shrinking, no later run
    decodes an entry at an index up to that size, so entries left out
    of a truncated batch are never decoded. *)
Theorem processLog_truncated_batch (conf : Config) (pats : list Regexp)
    (env : LogEnv) (st : LogState) (size : Z) (es : list RawEntry) :
  client_new_ok env = true -> get_sth env = Some size ->
  LastFetched st <> 0 -> size <> LastFetched st ->
  GetRawEntries env (toInt64 (u64 (LastFetched st + 1))) (toInt64 size)
    = Some es ->
  ((processLog conf pats env st).2 = Done (set_fetched st size (now env)) \/
   (processLog conf pats env st).2 = Fatal ErrPutObject \/
   (processLog conf pats env st).2 = Fatal ErrMarshal) /\
  (forall idx, In (EvDecode idx) (processLog conf pats env st).1 ->
     toInt64 (u64 (LastFetched st + 1)) <= idx <
     toInt64 (u64 (LastFetched st + 1)) + Z.of_nat (List.length es)) /\
  (0 <= size < 2 ^ 63 - 1 ->
   forall runs : list (bool * LogEnv),
   (forall loaded env', In (loaded, env') runs ->
      forall ts, get_sth env' = Some ts -> size <= ts < 2 ^ 63 - 1) ->
   forall tr idx,
     In tr (later_runs conf pats (set_fetched st size (now env)) runs) ->
     In (EvDecode idx) tr -> size < idx).
Proof.
  intros Hc Hs Hn Hne Hg.
  rewrite (processLog_advance_eq conf pats env st size es) by done.
  set (start := toInt64 (u64 (LastFetched st + 1))). simpl.
  split; [| split].
  - destruct (scan_result conf pats env start 0 es) as [-> | [-> | ->]];
      [by left | right; by left | right; by right].
  - intros idx [H | [H | H]]; try discriminate.
    destruct (scan_decode_inv conf pats env start 0 es idx H) as (i & Hi & ->).
    lia.
  - intros Hsize runs Hruns tr idx Htr Hidx.
    refine (later_runs_no_rewind conf pats size runs _ Hruns _ _ tr idx Htr Hidx);
      [lia |].
    right. simpl. lia.
Qed.

Lemma processLog_truncated_batch_witness :
  (processLog google_conf [] truncating_env (state_at 10)).2
    = Done (set_fetched (state_at 10) 15 1000) \/
  (processLog google_conf [] truncating_env (state_at 10)).2
    = Fatal ErrPutObject \/
  (processLog google_conf [] truncating_env (state_at 10)).2
    = Fatal ErrMarshal.
Proof.
  exact (proj1 (processLog_truncated_batch google_conf [] truncating_env
           (state_at 10) 15
           [mkRawEntry "other.example.org"; mkRawEntry "www.google.com"]
           eq_refl eq_refl ltac:(simpl; lia) ltac:(simpl; lia) eq_refl)).
Defined.

(* ================================================================== *)
(** * Further properties of the code *)

(** ** Rule engine: what a match reports *)

Lemma matchDomains_sound (name : string) (ds : list string) (d : string) :
  matchDomains name ds = Some d ->
  exists R, In R ds /\ domainMatches name R = true /\ d = ("domain-" ++ R)%string.
Proof.
  induction ds as [|R rest IH]; simpl; [done |].
  destruct (domainMatches name R) eqn:H; [intros [= <-]; eauto |].
  intros Hd. destruct (IH Hd) as (R' & ? & ? & ?). eauto.
Qed.

Lemma matchDomains_none (name : string) (ds : list string) :
  matchDomains name ds = None <->
  forall R, In R ds -> domainMatches name R = false.
Proof.
  induction ds as [|R rest IH]; simpl; [split; [intros _ R [] | done] |].
  destruct (domainMatches name R) eqn:H.
  - split; [discriminate |].
    intros Hall. rewrite (Hall R (or_introl eq_refl)) in H. discriminate.
  - rewrite IH. split.
    + intros Hall R' [<- | Hin]; [done | auto].
    + intros Hall R' Hin. apply Hall. by right.
Qed.


Lemma matchPatterns_sound (name : string) (ps : list Regexp) (d : string) :
  matchPatterns name ps = Some d ->
  exists p, In p ps /\ rx_match p name = true /\
            d = ("pattern-" ++ rx_source p)%string.
Proof.
  induction ps as [|p rest IH]; simpl; [done |].
  destruct (rx_match p name) eqn:H; [intros [= <-]; eauto |].
  intros Hd. destruct (IH Hd) as (p' & ? & ? & ?). eauto.
Qed.

Lemma matchPatterns_none (name : string) (ps : list Regexp) :
  matchPatterns name ps = None <->
  forall p, In p ps -> rx_match p name = false.
Proof.
  induction ps as [|p rest IH]; simpl; [split; [intros _ p [] | done] |].
  destruct (rx_match p name) eqn:H.
  - split; [discriminate |].
    intros Hall. rewrite (Hall p (or_introl eq_refl)) in H. discriminate.
  - rewrite IH. split.
    + intros Hall p' [<- | Hin]; [by subst | auto].
    + intros Hall p' Hin. apply Hall. by right.
Qed.

(** X1: a reported match names one of the certificate's DNS names and
    either a configured domain that name falls under, reported as
    ["domain-" ++ R], or a compiled pattern that matches it, reported as
    ["pattern-" ++ source]. *)
Theorem nameMatches_sound (conf : Config) (pats : list Regexp)
    (c : Certificate) (name rule : string) :
  nameMatches conf pats c = (true, name, rule) ->
  In name (DNSNames c) /\
  ((exists R, In R (Domains conf) /\ domainMatches name R = true /\
              rule = ("domain-" ++ R)%string) \/
   (exists p, In p pats /\ rx_match p name = true /\
              rule = ("pattern-" ++ rx_source p)%string)).
Proof.
  unfold nameMatches. induction (DNSNames c) as [|n rest IH]; simpl;
    [discriminate |].
  destruct (matchDomains n (Domains conf)) as [d|] eqn:Hd.
  - intros [= <- <-]. split; [by left |]. left. by apply matchDomains_sound.
  - destruct (matchPatterns n pats) as [p|] eqn:Hp.
    + intros [= <- <-]. split; [by left |]. right. by apply matchPatterns_sound.
    + intros H. destruct (IH H) as [Hin Hr]. split; [by right | exact Hr].
Qed.

Lemma nameMatches_sound_witness :
  In "www.google.com"%string (DNSNames (mkCertificate ["www.google.com"])).
Proof.
  exact (proj1 (nameMatches_sound google_conf []
           (mkCertificate ["www.google.com"]) "www.google.com" "domain-google.com"
           eq_refl)).
Defined.

(** X2: [nameMatches] reports no match exactly when none of the
    certificate's names falls under a configured domain or matches a
    pattern, and then it reports [(false, "", "")]; any other result is a
    match. *)
Theorem nameMatches_no_match (conf : Config) (pats : list Regexp)
    (c : Certificate) :
  (nameMatches conf pats c = (false, ""%string, ""%string) <->
   forall name, In name (DNSNames c) ->
     (forall R, In R (Domains conf) -> domainMatches name R = false) /\
     (forall p, In p pats -> rx_match p name = false)) /\
  ((nameMatches conf pats c).1.1 = true \/
   nameMatches conf pats c = (false, ""%string, ""%string)).
Proof.
  unfold nameMatches. induction (DNSNames c) as [|n rest [IH1 IH2]]; simpl.
  { split; [split; [intros _ name [] | done] | by right]. }
  destruct (matchDomains n (Domains conf)) as [d|] eqn:Hd.
  { split; [| by left]. split; [discriminate |].
    intros H. destruct (H n (or_introl eq_refl)) as [Hn _].
    apply matchDomains_none in Hn. congruence. }
  destruct (matchPatterns n pats) as [p|] eqn:Hp.
  { split; [| by left]. split; [discriminate |].
    intros H. destruct (H n (or_introl eq_refl)) as [_ Hn].
    apply matchPatterns_none in Hn. congruence. }
  split; [| exact IH2].
  rewrite IH1. split.
  - intros H name [<- | Hin]; [| by apply H].
    split; [by apply matchDomains_none | by apply matchPatterns_none].
  - intros H name Hin. apply H. by right.
Qed.



(** X4: domain rules are closed under adding leading labels (a name under
    [R] stays under [R] with more labels in front) and transitive (a name
    under [R], where [R] is under [R'], is under [R']). *)
Theorem domainMatches_subdomain_trans (n R R' l : string) :
  domainMatches n R = true ->
  domainMatches (l ++ "." ++ n) R = true /\
  (domainMatches R R' = true -> domainMatches n R' = true).
Proof.
  rewrite !domainMatches_spec. unfold spec_suffix_match.
  intros HnR. split.
  - right. destruct HnR as [-> | [p ->]]; [by exists l |].
    exists (l ++ "." ++ p)%string. by rewrite <- !append_assoc_str.
  - intros [-> | [q ->]]; [exact HnR |].
    right. destruct HnR as [-> | [p ->]]; [by exists q |].
    exists (p ++ "." ++ q)%string. by rewrite <- !append_assoc_str.
Qed.

Lemma domainMatches_subdomain_trans_witness :
  domainMatches "mail.www.google.com" "google.com" = true.
Proof.
  exact (proj1 (domainMatches_subdomain_trans "www.google.com" "google.com"
                  "com" "mail" eq_refl)).
Defined.

(** ** The sync task: order and shape of its calls *)

Lemma decoded_indices_decode (i : Z) (tr : list Event) :
  decoded_indices (EvDecode i :: tr) = i :: decoded_indices tr.
Proof. reflexivity. Qed.

Lemma decoded_indices_put (i : Z) (n : string) (ok : bool) (tr : list Event) :
  decoded_indices (EvPut i n ok :: tr) = decoded_indices tr.
Proof. reflexivity. Qed.

Lemma put_indices_decode (i : Z) (tr : list Event) :
  put_indices (EvDecode i :: tr) = put_indices tr.
Proof. reflexivity. Qed.

Lemma put_indices_put (i : Z) (n : string) (ok : bool) (tr : list Event) :
  put_indices (EvPut i n ok :: tr) = i :: put_indices tr.
Proof. reflexivity. Qed.

Lemma put_indices_in (tr : list Event) (i : Z) :
  In i (put_indices tr) -> exists n ok, In (EvPut i n ok) tr.
Proof.
  induction tr as [|ev tr IH]; [done |].
  destruct ev as [| s e | j | j n ok]; simpl;
    try (intros H; destruct (IH H) as (n & ok & Hin); eauto).
  intros [-> | H]; [eauto |]. destruct (IH H) as (n' & ok' & Hin). eauto.
Qed.

Lemma nameMatches_names_in (conf : Config) (pats : list Regexp)
    (c : Certificate) (name rule : string) :
  nameMatches conf pats c = (true, name, rule) -> In name (DNSNames c).
Proof.
  unfold nameMatches. induction (DNSNames c) as [|n rest IH]; simpl;
    [discriminate |].
  destruct (matchDomains n (Domains conf)); [intros [= <- _]; by left |].
  destruct (matchPatterns n pats); [intros [= <- _]; by left |].
  intros H. right. exact (IH H).
Qed.

Section ScanOrder.
Variables (conf : Config) (pats : list Regexp) (env : LogEnv) (start : Z).

Lemma scan_decoded (k : nat) (es : list RawEntry) :
  exists n, (n <= List.length es)%nat /\
    decoded_indices (scanEntries conf pats env start k es).1
      = map (fun i => start + Z.of_nat i) (seq k n) /\
    ((scanEntries conf pats env start k es).2 = None -> n = List.length es).
Proof.
  revert k. induction es as [|e rest IH]; intros k.
  { exists 0%nat. simpl. split; [lia | done]. }
  destruct (IH (S k)) as (n & Hn & Hd & Hnone).
  simpl. unfold cons_ev. simpl.
  destruct (decode env (start + Z.of_nat k) e) as [le|le|].
  3: { exists (S n). simpl. rewrite ?decoded_indices_decode, Hd.
       split; [lia | split; [done | intros H; f_equal; auto]]. }
  all: destruct (selectCert conf le) as [cert|].
  2, 4: exists (S n); simpl; rewrite ?decoded_indices_decode, Hd;
        split; [lia | split; [done | intros H; f_equal; auto]].
  all: destruct (nameMatches conf pats cert) as [[[|] name] r].
  2, 4: exists (S n); simpl; rewrite ?decoded_indices_decode, Hd;
        split; [lia | split; [done | intros H; f_equal; auto]].
  all: destruct (marshal_ok env e); [destruct (put_ok env (start + Z.of_nat k)) |].
  all: simpl.
  1, 4: exists (S n); rewrite ?decoded_indices_decode, ?decoded_indices_put, Hd;
        split; [lia | split; [done | intros H; f_equal; auto]].
  all: exists 1%nat; split; [lia | split; [reflexivity | discriminate]].
Qed.

Lemma scan_put_failure (k : nat) (es : list RawEntry) :
  (scanEntries conf pats env start k es).2 = Some ErrPutObject ->
  exists pre idx n,
    (scanEntries conf pats env start k es).1 = pre ++ [EvPut idx n false] /\
    put_ok env idx = false /\ In (EvDecode idx) pre /\
    (forall j, In (EvDecode j) pre -> j <= idx).
Proof.
  revert k. induction es as [|e rest IH]; intros k; [discriminate |].
  assert (Hstep : forall (pre0 : list Event),
            (scanEntries conf pats env start (S k) rest).2 = Some ErrPutObject ->
            (forall j, In (EvDecode j) pre0 -> j = start + Z.of_nat k) ->
            exists pre idx n,
              EvDecode (start + Z.of_nat k) :: pre0 ++
                (scanEntries conf pats env start (S k) rest).1
                = pre ++ [EvPut idx n false] /\
              put_ok env idx = false /\ In (EvDecode idx) pre /\
              (forall j, In (EvDecode j) pre -> j <= idx)).
  { intros pre0 H Hpre0.
    destruct (IH (S k) H) as (pre & idx & n & Htr & Hput & Hin & Hle).
    assert (Hge : start + Z.of_nat k < idx).
    { assert (Hin' : In (EvDecode idx) (scanEntries conf pats env start (S k) rest).1)
        by (rewrite Htr; apply in_or_app; by left).
      destruct (scan_decode_inv conf pats env start (S k) rest idx Hin')
        as (i & _ & ->). lia. }
    exists (EvDecode (start + Z.of_nat k) :: pre0 ++ pre), idx, n.
    split; [rewrite Htr; simpl; by rewrite app_assoc |].
    split; [done |]. split; [right; apply in_or_app; by right |].
    intros j [Hj | Hj]; [injection Hj as <-; lia |].
    apply in_app_or in Hj as [Hj | Hj]; [apply Hpre0 in Hj; lia | auto]. }
  simpl. unfold cons_ev. simpl.
  destruct (decode env (start + Z.of_nat k) e) as [le|le|].
  3: { intros H. exact (Hstep [] H (fun j Hj => match Hj with end)). }
  all: destruct (selectCert conf le) as [cert|].
  2, 4: intros H; exact (Hstep [] H (fun j Hj => match Hj with end)).
  all: destruct (nameMatches conf pats cert) as [[[|] name] r].
  2, 4: intros H; exact (Hstep [] H (fun j Hj => match Hj with end)).
  all: destruct (marshal_ok env e); [destruct (put_ok env (start + Z.of_nat k)) eqn:Hp |].
  all: simpl; try discriminate.
  1, 3: intros H; apply (Hstep [EvPut (start + Z.of_nat k) name true] H);
        intros j [Hj | []]; discriminate.
  all: intros _; exists [EvDecode (start + Z.of_nat k)], (start + Z.of_nat k), name.
  all: split; [reflexivity | split; [done | split; [by left |]]].
  all: intros j [Hj | []]; injection Hj as <-; lia.
Qed.

Lemma scan_put_ge (k : nat) (es : list RawEntry) (idx : Z) (n : string)
    (ok : bool) :
  In (EvPut idx n ok) (scanEntries conf pats env start k es).1 ->
  start + Z.of_nat k <= idx.
Proof.
  intros H. destruct (scan_put_inv conf pats env start k es idx n ok H)
    as (i & e & _ & -> & _). lia.
Qed.

Lemma scan_put_sorted (k : nat) (es : list RawEntry) :
  StronglySorted Z.lt (put_indices (scanEntries conf pats env start k es).1).
Proof.
  revert k. induction es as [|e rest IH]; intros k; [constructor |].
  assert (Hfor : Forall (Z.lt (start + Z.of_nat k))
                   (put_indices (scanEntries conf pats env start (S k) rest).1)).
  { apply Forall_forall. intros j Hj. apply list_elem_of_In in Hj.
    destruct (put_indices_in _ j Hj) as (n & ok & Hin).
    apply scan_put_ge in Hin. lia. }
  simpl. unfold cons_ev. simpl.
  destruct (decode env (start + Z.of_nat k) e) as [le|le|].
  3: { rewrite ?put_indices_decode. apply IH. }
  all: destruct (selectCert conf le) as [cert|].
  2, 4: rewrite ?put_indices_decode; apply IH.
  all: destruct (nameMatches conf pats cert) as [[[|] name] r].
  2, 4: rewrite ?put_indices_decode; apply IH.
  all: destruct (marshal_ok env e); [destruct (put_ok env (start + Z.of_nat k)) |].
  all: simpl.
  1, 4: rewrite ?put_indices_decode, ?put_indices_put; constructor; [apply IH | exact Hfor].
  all: repeat constructor.
Qed.

End ScanOrder.

Lemma processLog_put_inv (conf : Config) (pats : list Regexp) (env : LogEnv)
    (st : LogState) (idx : Z) (n : string) (ok : bool) :
  In (EvPut idx n ok) (processLog conf pats env st).1 ->
  exists size es i e,
    get_sth env = Some size /\
    GetRawEntries env (toInt64 (u64 (LastFetched st + 1))) (toInt64 size)
      = Some es /\
    es !! i = Some e /\ idx = toInt64 (u64 (LastFetched st + 1)) + Z.of_nat i /\
    entry_match conf pats (decode env idx e) = Some n.
Proof.
  unfold processLog.
  destruct (client_new_ok env); simpl; [| done].
  destruct (get_sth env) as [ts|]; simpl; [| intros [H | []]; discriminate].
  destruct (LastFetched st =? 0); simpl; [intros [H | []]; discriminate |].
  destruct (ts =? LastFetched st); simpl; [intros [H | []]; discriminate |].
  destruct (GetRawEntries _ _ _) as [es|] eqn:Hg; simpl;
    [| intros [H | [H | []]]; discriminate].
  intros [H | [H | H]]; try discriminate.
  destruct (scan_put_inv conf pats env _ 0 es idx n ok H) as (i & e & Hi & Hidx & Hm).
  exists ts, es, i, e. split; [done | split; [done | split; [done | split]]];
    [rewrite Hidx; f_equal | exact Hm].
Qed.



(** X6: a sync task either returns the state it was given unchanged, or
    that state with the watermark set to a size the log reported and the
    fetch time set to the current time; its only fatal errors are a
    failed client construction, a failed artifact write and a failed
    artifact encoding. *)
Theorem processLog_outcomes (conf : Config) (pats : list Regexp)
    (env : LogEnv) (st : LogState) :
  (forall st', (processLog conf pats env st).2 = Done st' ->
     st' = st \/
     exists ts, get_sth env = Some ts /\ st' = set_fetched st ts (now env)) /\
  (forall e, (processLog conf pats env st).2 = Fatal e ->
     e = ErrNewClient \/ e = ErrPutObject \/ e = ErrMarshal).
Proof.
  unfold processLog.
  destruct (client_new_ok env); simpl;
    [| split; [discriminate | intros e [= <-]; by left]].
  destruct (get_sth env) as [ts|]; simpl;
    [| split; [intros st' [= <-]; by left | discriminate]].
  destruct (LastFetched st =? 0); simpl;
    [split; [intros st' [= <-]; right; eauto | discriminate] |].
  destruct (ts =? LastFetched st); simpl;
    [split; [intros st' [= <-]; by left | discriminate] |].
  destruct (GetRawEntries _ _ _) as [es|]; simpl;
    [| split; [intros st' [= <-]; by left | discriminate]].
  pose proof (scan_result conf pats env (toInt64 (u64 (LastFetched st + 1))) 0 es)
    as Hr.
  destruct (scanEntries _ _ _ _ _ _).2 as [e|] eqn:He.
  - split; [discriminate |]. intros e' [= <-].
    destruct Hr as [Hr | [Hr | Hr]]; simplify_eq; auto.
  - split; [intros st' [= <-]; right; eauto | discriminate].
Qed.

(** X7: the entries of a fetched batch are decoded one after another from
    the first index of the range, each once; a task that does not fail
    decodes all of them. *)
Theorem processLog_decodes_in_order (conf : Config) (pats : list Regexp)
    (env : LogEnv) (st : LogState) (size : Z) (es : list RawEntry) :
  client_new_ok env = true -> get_sth env = Some size ->
  LastFetched st <> 0 -> size <> LastFetched st ->
  GetRawEntries env (toInt64 (u64 (LastFetched st + 1))) (toInt64 size)
    = Some es ->
  exists n, (n <= List.length es)%nat /\
    decoded_indices (processLog conf pats env st).1 =
      map (fun i => toInt64 (u64 (LastFetched st + 1)) + Z.of_nat i) (seq 0 n) /\
    (forall st', (processLog conf pats env st).2 = Done st' ->
       n = List.length es).
Proof.
  intros Hc Hs Hn Hne Hg.
  rewrite (processLog_advance_eq conf pats env st size es) by done.
  destruct (scan_decoded conf pats env (toInt64 (u64 (LastFetched st + 1))) 0 es)
    as (n & Hle & Hd & Hnone).
  exists n. split; [done | split; [exact Hd |]].
  simpl. destruct (scanEntries _ _ _ _ _ _).2; [discriminate |].
  intros _ _. auto.
Qed.

Lemma processLog_decodes_in_order_witness :
  exists n, (n <= 4)%nat /\
    decoded_indices (processLog google_conf [] (env_of_log (sample_log 15 12))
                       (state_at 10)).1 =
      map (fun i => 11 + Z.of_nat i) (seq 0 n) /\
    (forall st', (processLog google_conf [] (env_of_log (sample_log 15 12))
                    (state_at 10)).2 = Done st' -> n = 4%nat).
Proof.
  exact (processLog_decodes_in_order google_conf [] (env_of_log (sample_log 15 12))
           (state_at 10) 15 (drop 11 (sample_log 15 12))
           eq_refl eq_refl ltac:(simpl; lia) ltac:(simpl; lia) eq_refl).
Defined.

(** X8: when an artifact write fails the task stops there: the failed
    write is its last call, it followed the decode of that entry, and no
    entry past it was decoded. *)
Theorem processLog_stops_at_failed_put (conf : Config) (pats : list Regexp)
    (env : LogEnv) (st : LogState) :
  (processLog conf pats env st).2 = Fatal ErrPutObject ->
  exists pre idx n,
    (processLog conf pats env st).1 = pre ++ [EvPut idx n false] /\
    put_ok env idx = false /\ In (EvDecode idx) pre /\
    (forall j, In (EvDecode j) pre -> j <= idx).
Proof.
  unfold processLog.
  destruct (client_new_ok env); simpl; [| discriminate].
  destruct (get_sth env) as [ts|]; simpl; [| discriminate].
  destruct (LastFetched st =? 0); simpl; [discriminate |].
  destruct (ts =? LastFetched st); simpl; [discriminate |].
  destruct (GetRawEntries _ _ _) as [es|]; simpl; [| discriminate].
  destruct (scanEntries _ _ _ _ _ _).2 as [e|] eqn:He; [| discriminate].
  intros [= ->].
  destruct (scan_put_failure conf pats env _ 0 es He)
    as (pre & idx & n & Htr & Hput & Hin & Hle).
  exists (EvGetSTH :: EvGetRawEntries (toInt64 (u64 (LastFetched st + 1)))
                                      (toInt64 ts) :: pre), idx, n.
  split; [by rewrite Htr |]. split; [done |].
  split; [right; by right |].
  intros j [Hj | [Hj | Hj]]; [discriminate | discriminate | auto].
Qed.

Lemma processLog_stops_at_failed_put_witness :
  exists pre idx n,
    (processLog google_conf [] failing_put_env (state_at 10)).1
      = pre ++ [EvPut idx n false] /\
    put_ok failing_put_env idx = false /\ In (EvDecode idx) pre /\
    (forall j, In (EvDecode j) pre -> j <= idx).
Proof.
  apply processLog_stops_at_failed_put. vm_compute. reflexivity.
Defined.

(** X9: artifact writes are issued in strictly increasing entry order, so
    a task writes at most one artifact per entry, even when several of a
    certificate's names match. *)
Theorem processLog_puts_increasing (conf : Config) (pats : list Regexp)
    (env : LogEnv) (st : LogState) :
  StronglySorted Z.lt (put_indices (processLog conf pats env st).1).
Proof.
  unfold processLog.
  destruct (client_new_ok env); simpl; [| constructor].
  destruct (get_sth env) as [ts|]; simpl; [| constructor].
  destruct (LastFetched st =? 0); simpl; [constructor |].
  destruct (ts =? LastFetched st); simpl; [constructor |].
  destruct (GetRawEntries _ _ _) as [es|]; simpl; [| constructor].
  apply scan_put_sorted.
Qed.

(** X10: with pre-certificates off, every artifact comes from an entry of
    the fetched batch that decoded to an X.509 certificate (precertificate
    entries are never written), and is named after one of that
    certificate's DNS names that the rules match. *)
Theorem processLog_precerts_off (conf : Config) (pats : list Regexp)
    (env : LogEnv) (st : LogState) (idx : Z) (n : string) (ok : bool) :
  IncludePreCerts conf = false ->
  In (EvPut idx n ok) (processLog conf pats env st).1 ->
  exists size es i e le c d,
    get_sth env = Some size /\
    GetRawEntries env (toInt64 (u64 (LastFetched st + 1))) (toInt64 size)
      = Some es /\
    es !! i = Some e /\ idx = toInt64 (u64 (LastFetched st + 1)) + Z.of_nat i /\
    (decode env idx e = DecOk le \/ decode env idx e = DecNonFatal le) /\
    X509Cert le = Some c /\ nameMatches conf pats c = (true, n, d) /\
    In n (DNSNames c).
Proof.
  intros Hinc H.
  destruct (processLog_put_inv conf pats env st idx n ok H)
    as (size & es & i & e & Hs & Hg & Hi & Hidx & Hm).
  unfold entry_match, selectCert in Hm. rewrite Hinc in Hm.
  assert (Hcert : forall le, (decode env idx e = DecOk le \/
                              decode env idx e = DecNonFatal le) ->
            match X509Cert le with
            | Some cert => match nameMatches conf pats cert with
                           | (true, name, _) => Some name
                           | _ => None
                           end
            | None => None
            end = Some n ->
            exists size es i e le c d,
              get_sth env = Some size /\
              GetRawEntries env (toInt64 (u64 (LastFetched st + 1)))
                (toInt64 size) = Some es /\
              es !! i = Some e /\
              idx = toInt64 (u64 (LastFetched st + 1)) + Z.of_nat i /\
              (decode env idx e = DecOk le \/ decode env idx e = DecNonFatal le) /\
              X509Cert le = Some c /\ nameMatches conf pats c = (true, n, d) /\
              In n (DNSNames c)).
  { intros le Hd Hx.
    destruct (X509Cert le) as [c|] eqn:Hc; [| discriminate].
    destruct (nameMatches conf pats c) as [[[|] name] d] eqn:Hnm; [| discriminate].
    injection Hx as <-.
    exists size, es, i, e, le, c, d.
    repeat (split; [done |]).
    exact (nameMatches_names_in conf pats c name d Hnm). }
  destruct (decode env idx e) as [le|le|] eqn:Hd; [| | discriminate].
  - apply (Hcert le); [by left | exact Hm].
  - apply (Hcert le); [by right | exact Hm].
Qed.

Lemma processLog_precerts_off_witness :
  exists size es i e le c d,
    get_sth (env_of_log (sample_log 15 12)) = Some size /\
    GetRawEntries (env_of_log (sample_log 15 12))
      (toInt64 (u64 (LastFetched (state_at 10) + 1))) (toInt64 size) = Some es /\
    es !! i = Some e /\
    12 = toInt64 (u64 (LastFetched (state_at 10) + 1)) + Z.of_nat i /\
    (decode (env_of_log (sample_log 15 12)) 12 e = DecOk le \/
     decode (env_of_log (sample_log 15 12)) 12 e = DecNonFatal le) /\
    X509Cert le = Some c /\
    nameMatches google_conf [] c = (true, "www.google.com"%string, d) /\
    In "www.google.com"%string (DNSNames c).
Proof.
  apply (processLog_precerts_off google_conf [] (env_of_log (sample_log 15 12))
           (state_at 10) 12 "www.google.com" true eq_refl).
  vm_compute. repeat (first [left; reflexivity | right]).
Defined.

(** X11: the [uint64] watermark [2^64 - 1] wraps the range start to 0:
    the task then refetches the log from its first entry and, when its
    writes succeed, lowers the watermark to the reported size. *)
Theorem processLog_max_watermark_wraps (conf : Config) (pats : list Regexp)
    (env : LogEnv) (st : LogState) (ts : Z) (es : list RawEntry) :
  LastFetched st = 2 ^ 64 - 1 -> client_new_ok env = true ->
  get_sth env = Some ts -> 0 <= ts < 2 ^ 63 ->
  GetRawEntries env 0 ts = Some es ->
  (forall e, marshal_ok env e = true) -> (forall i, put_ok env i = true) ->
  (exists tr, processLog conf pats env st =
     (EvGetSTH :: EvGetRawEntries 0 ts :: tr, Done (set_fetched st ts (now env)))) /\
  ts < LastFetched st.
Proof.
  intros Hlf Hc Hs Hts Hg Hm Hp.
  assert (Hstart : toInt64 (u64 (LastFetched st + 1)) = 0).
  { rewrite Hlf. unfold u64, toInt64.
    replace (2 ^ 64 - 1 + 1) with (2 ^ 64) by lia.
    rewrite Z_mod_same_full. reflexivity. }
  assert (Hend : toInt64 ts = ts).
  { unfold toInt64. destruct (Z.ltb_spec ts (2 ^ 63)); lia. }
  split; [| lia].
  rewrite (processLog_advance_eq conf pats env st ts es) by
    (try rewrite Hstart, Hend; try done; lia).
  rewrite Hstart, Hend.
  destruct (scan_all_ok conf pats env 0 0 es Hm Hp) as [Hnone _].
  rewrite Hnone. eexists. reflexivity.
Qed.

Lemma processLog_max_watermark_wraps_witness :
  (exists tr, processLog google_conf [] (env_of_log (sample_log 15 12))
                (mkLogState monitored_url "Example" "example log" (2 ^ 64 - 1) 500) =
     (EvGetSTH :: EvGetRawEntries 0 15 :: tr,
      Done (set_fetched
              (mkLogState monitored_url "Example" "example log" (2 ^ 64 - 1) 500)
              15 1000))) /\
  15 < LastFetched (mkLogState monitored_url "Example" "example log" (2 ^ 64 - 1) 500).
Proof.
  apply (processLog_max_watermark_wraps google_conf [] (env_of_log (sample_log 15 12))
           _ 15 (sample_log 15 12)); try reflexivity; lia.
Defined.

(** ** The run coordinator: what the saved state holds *)

Lemma collect_dom (states : LogStates) (results : list Outcome)
    (final : LogStates) (k : string) :
  collect states results = inr final ->
  is_Some (states !! k) -> is_Some (final !! k).
Proof.
  revert states. induction results as [|r rest IH]; intros states Hc Hk.
  - by injection Hc as <-.
  - destruct r as [st|e]; simpl in Hc; [| discriminate].
    apply (IH _ Hc). destruct (decide (URL st = k)) as [<- | Hne].
    + rewrite lookup_insert_eq. by eexists.
    + by rewrite lookup_insert_ne.
Qed.

Lemma collect_untouched (states : LogStates) (results : list Outcome)
    (final : LogStates) (k : string) :
  collect states results = inr final ->
  (forall st, In (Done st) results -> URL st <> k) ->
  final !! k = states !! k.
Proof.
  revert states. induction results as [|r rest IH]; intros states Hc Hn.
  - by injection Hc as <-.
  - destruct r as [st|e]; simpl in Hc; [| discriminate].
    rewrite (IH _ Hc (fun s H => Hn s (or_intror H))).
    apply lookup_insert_ne. apply Hn. by left.
Qed.

Lemma collect_in (states : LogStates) (results : list Outcome)
    (final : LogStates) (k : string) (s : LogState) :
  collect states results = inr final -> final !! k = Some s ->
  states !! k = Some s \/ (In (Done s) results /\ URL s = k).
Proof.
  revert states. induction results as [|r rest IH]; intros states Hc Hk.
  - injection Hc as <-. by left.
  - destruct r as [st|e]; simpl in Hc; [| discriminate].
    destruct (IH _ Hc Hk) as [H | [H1 H2]]; [| right; split; [by right | done]].
    destruct (decide (URL st = k)) as [<- | Hne].
    + rewrite lookup_insert_eq in H. injection H as <-.
      right. split; [by left | done].
    + rewrite lookup_insert_ne in H by done. by left.
Qed.

Lemma collect_present (states : LogStates) (results : list Outcome)
    (final : LogStates) (s : LogState) :
  collect states results = inr final -> In (Done s) results ->
  is_Some (final !! URL s).
Proof.
  revert states. induction results as [|r rest IH]; intros states Hc Hin;
    [done |].
  destruct r as [st|e]; simpl in Hc; [| discriminate].
  destruct Hin as [Hin | Hin]; [| exact (IH _ Hc Hin)].
  injection Hin as <-. apply (collect_dom _ _ _ _ Hc).
  rewrite lookup_insert_eq. by eexists.
Qed.


Lemma launchTasks_in (states : LogStates) (ll : LogList) (op : LogOperator)
    (lg : CTLog) :
  In op (Operators ll) -> In lg (operator_logs op) -> usable lg = true ->
  In (initialState states op lg) (launchTasks states ll).
Proof.
  intros Hop Hlg Hu. unfold launchTasks. apply in_flat_map.
  exists op. split; [done |]. apply in_map_iff. exists lg.
  split; [done |]. by apply filter_In.
Qed.

Lemma launchTasks_nil (states : LogStates) (ll : LogList) :
  (forall op lg, In op (Operators ll) -> In lg (operator_logs op) ->
     usable lg = false) ->
  launchTasks states ll = [].
Proof.
  intros H. destruct (launchTasks states ll) as [|st rest] eqn:Hl; [done |].
  assert (Hin : In st (launchTasks states ll)) by (rewrite Hl; by left).
  unfold launchTasks in Hin. apply in_flat_map in Hin as (op & Hop & Hin).
  apply in_map_iff in Hin as (lg & _ & Hlg). apply filter_In in Hlg as [Hlg Hu].
  rewrite (H op lg Hop Hlg) in Hu. discriminate.
Qed.

Lemma Handler_saved_inv (obj : StateObject) (w : World) (final : LogStates) :
  In (HSaveState final) (Handler obj w).1 ->
  exists conf states ll pats,
    load_loop 3 (load_sched w (load_msgs obj w)) None None None
      = inr (Some conf, Some states, Some ll) /\
    compilePatterns (compile w) (Patterns conf) = inr pats /\
    collect states (result_sched w
      (map (fun st => (processLog conf pats (log_env w (URL st)) st).2)
         (launchTasks states ll))) = inr final /\
    put_state_ok w = true.
Proof.
  unfold Handler.
  destruct (String.eqb _ _); [intros [] |].
  destruct (negb _); [intros [] |].
  destruct (load_loop _ _ _ _ _) as [e | [[[conf|] [states|]] [ll|]]] eqn:Hload;
    try (intros []).
  destruct (compilePatterns _ _) as [e | pats] eqn:Hcp; [intros [] |].
  cbv beta zeta.
  destruct (collect states _) as [e | final'] eqn:Hcol.
  - intros Hin. apply in_map_iff in Hin as (? & ? & _). discriminate.
  - destruct (put_state_ok w) eqn:Hput.
    + intros Hin. apply in_app_or in Hin as [Hin | [Hin | []]].
      * apply in_map_iff in Hin as (? & ? & _). discriminate.
      * injection Hin as ->. exists conf, states, ll, pats. done.
    + intros Hin. apply in_map_iff in Hin as (? & ? & _). discriminate.
Qed.

(** X12: when the loaded file maps each URL to a state for that URL, the
    saved state file keeps an entry for every URL it was loaded with
    (logs gone from the catalog or no longer usable are never dropped),
    and the entry of a URL that no sync task ran for is saved
    unchanged. *)
Theorem Handler_keeps_entries (obj : StateObject) (w : World) (conf : Config)
    (states : LogStates) (ll : LogList) (final : LogStates) :
  (forall l, Permutation l (result_sched w l)) ->
  load_loop 3 (load_sched w (load_msgs obj w)) None None None
    = inr (Some conf, Some states, Some ll) ->
  (forall k s, states !! k = Some s -> URL s = k) ->
  In (HSaveState final) (Handler obj w).1 ->
  (forall k, is_Some (states !! k) -> is_Some (final !! k)) /\
  (forall k, (forall st, In st (launchTasks states ll) -> URL st <> k) ->
     final !! k = states !! k).
Proof.
  intros Hperm Hload _ Hsaved.
  destruct (Handler_saved_inv obj w final Hsaved)
    as (conf' & states' & ll' & pats & Hload' & _ & Hcol & _).
  rewrite Hload in Hload'. injection Hload' as <- <- <-.
  split.
  - intros k. exact (collect_dom _ _ _ k Hcol).
  - intros k Hk. apply (collect_untouched _ _ _ k Hcol).
    intros st' Hin. apply (Permutation_in _ (Permutation_sym (Hperm _))) in Hin.
    apply in_map_iff in Hin as (st & Hrun & Hin).
    rewrite (processLog_url _ _ _ _ _ Hrun). by apply Hk.
Qed.

Lemma Handler_keeps_entries_witness :
  (forall k, is_Some (({[ monitored_url := state_at 10 ]} : LogStates) !! k) ->
     is_Some (({[ monitored_url := state_at 10 ]} : LogStates) !! k)) /\
  (forall k, (forall st, In st (launchTasks {[ monitored_url := state_at 10 ]}
                                   retired_log_list) -> URL st <> k) ->
     ({[ monitored_url := state_at 10 ]} : LogStates) !! k =
     ({[ monitored_url := state_at 10 ]} : LogStates) !! k).
Proof.
  apply (Handler_keeps_entries (stored_at 10) (retired_world true) google_conf
           {[ monitored_url := state_at 10 ]} retired_log_list
           {[ monitored_url := state_at 10 ]} (fun l => Permutation_refl l)).
  - vm_compute. reflexivity.
  - intros k s Hk. apply lookup_singleton_Some in Hk as [<- <-]. reflexivity.
  - vm_compute. left. reflexivity.
Defined.

(** X13: if the loaded file maps each URL to a state for that URL, so does
    the saved one, and after a successful run the saved file has an entry
    for every usable log of the catalog. *)
Theorem Handler_saves_usable_logs (obj : StateObject) (w : World)
    (conf : Config) (states : LogStates) (ll : LogList) (final : LogStates) :
  (forall l, Permutation l (result_sched w l)) ->
  load_loop 3 (load_sched w (load_msgs obj w)) None None None
    = inr (Some conf, Some states, Some ll) ->
  (forall k s, states !! k = Some s -> URL s = k) ->
  In (HSaveState final) (Handler obj w).1 ->
  (forall k s, final !! k = Some s -> URL s = k) /\
  (forall op lg, In op (Operators ll) -> In lg (operator_logs op) ->
     usable lg = true -> is_Some (final !! log_url lg)).
Proof.
  intros Hperm Hload Hwk Hsaved.
  destruct (Handler_saved_inv obj w final Hsaved)
    as (conf' & states' & ll' & pats & Hload' & _ & Hcol & _).
  rewrite Hload in Hload'. injection Hload' as <- <- <-.
  split.
  - intros k s Hk.
    destruct (collect_in _ _ _ k s Hcol Hk) as [H | [_ H]]; [by apply Hwk | done].
  - intros op lg Hop Hlg Hu.
    pose proof (launchTasks_in states ll op lg Hop Hlg Hu) as Htask.
    set (st := initialState states op lg) in Htask.
    assert (Hurl : URL st = log_url lg).
    { subst st. unfold initialState.
      destruct (states !! log_url lg) eqn:Hs; [by apply Hwk | done]. }
    assert (Hin : In ((processLog conf pats (log_env w (URL st)) st).2)
                    (result_sched w
                       (map (fun st => (processLog conf pats (log_env w (URL st)) st).2)
                          (launchTasks states ll)))).
    { eapply Permutation_in; [apply Hperm |]. apply in_map_iff. eauto. }
    destruct ((processLog conf pats (log_env w (URL st)) st).2) as [st'|e] eqn:Hrun.
    + rewrite <- Hurl, <- (processLog_url _ _ _ _ _ Hrun).
      exact (collect_present _ _ _ _ Hcol Hin).
    + destruct (collect_fatal states _ _ Hin) as [e' He']. congruence.
Qed.

Lemma Handler_saves_usable_logs_witness :
  (forall k s, ({[ monitored_url := set_fetched (state_at 10) 15 1000 ]}
                  : LogStates) !! k = Some s -> URL s = k) /\
  (forall op lg, In op (Operators one_log_list) -> In lg (operator_logs op) ->
     usable lg = true ->
     is_Some (({[ monitored_url := set_fetched (state_at 10) 15 1000 ]}
                 : LogStates) !! log_url lg)).
Proof.
  apply (Handler_saves_usable_logs (stored_at 10)
           (sample_world google_conf accept_all true (env_of_log (sample_log 15 12)))
           google_conf {[ monitored_url := state_at 10 ]} one_log_list
           _ (fun l => Permutation_refl l)).
  - vm_compute. reflexivity.
  - intros k s Hk. apply lookup_singleton_Some in Hk as [<- <-]. reflexivity.
  - vm_compute. right. left. reflexivity.
Defined.



(** X15: a run over a catalog with no usable log rewrites the state file
    with exactly the map it loaded (the empty map when the file failed to
    load) and succeeds, contacting no log. *)
Theorem Handler_no_usable_logs (obj : StateObject) (w : World) (conf : Config)
    (states : LogStates) (ll : LogList) (pats : list Regexp) :
  (forall l, Permutation l (result_sched w l)) ->
  bucket_env w <> ""%string -> aws_config_ok w = true ->
  load_loop 3 (load_sched w (load_msgs obj w)) None None None
    = inr (Some conf, Some states, Some ll) ->
  compilePatterns (compile w) (Patterns conf) = inr pats ->
  put_state_ok w = true ->
  (forall op lg, In op (Operators ll) -> In lg (operator_logs op) ->
     usable lg = false) ->
  Handler obj w = ([HSaveState states], RunOk).
Proof.
  intros Hperm Hb Ha Hload Hcp Hput Hno. unfold Handler.
  apply String.eqb_neq in Hb. rewrite Hb, Ha. cbn [negb].
  rewrite Hload, Hcp. cbv beta zeta.
  rewrite (launchTasks_nil states ll Hno). simpl.
  rewrite (Permutation_nil (Hperm [])). simpl. by rewrite Hput.
Qed.

Lemma Handler_no_usable_logs_witness :
  Handler (stored_at 10) (retired_world true)
    = ([HSaveState {[ monitored_url := state_at 10 ]}], RunOk).
Proof.
  apply (Handler_no_usable_logs (stored_at 10) (retired_world true) google_conf
           {[ monitored_url := state_at 10 ]} retired_log_list []
           (fun l => Permutation_refl l)); [discriminate | reflexivity | | reflexivity
           | reflexivity |].
  - vm_compute. reflexivity.
  - intros op lg [<- | []] [<- | []]. reflexivity.
Defined.

(** ** Pattern compilation *)

(** X16: pattern compilation either compiles every configured pattern, in
    order, or fails naming the first pattern that does not compile. *)
Theorem compilePatterns_spec (compile : string -> option Regexp)
    (ps : list string) :
  (forall pats, compilePatterns compile ps = inr pats ->
     Forall2 (fun p r => compile p = Some r) ps pats) /\
  (forall e, compilePatterns compile ps = inl e ->
     exists pre p post, ps = pre ++ p :: post /\
       Forall (fun q => is_Some (compile q)) pre /\
       compile p = None /\ e = ErrCompile p).
Proof.
  induction ps as [|p rest [IH1 IH2]]; simpl.
  - split; [intros pats [= <-]; constructor | discriminate].
  - destruct (compile p) as [r|] eqn:Hp.
    + destruct (compilePatterns compile rest) as [e | rs].
      * split; [discriminate |]. intros e' [= <-].
        destruct (IH2 e eq_refl) as (pre & q & post & -> & Hpre & Hq & ->).
        exists (p :: pre), q, post.
        split; [done | split; [constructor; [by eexists | done] | done]].
      * split; [| discriminate]. intros pats [= <-].
        constructor; [done | by apply IH1].
    + split; [discriminate |]. intros e [= <-].
      exists [], p, rest. split; [done | split; [constructor | done]].
Qed.

(** ** The json-to-cert tool *)

(** X17: json-to-cert exits normally only when the format flag is text,
    json or pem, a file argument was given, opened and read as a leaf, and
    the leaf decoded with no error at all, fatal or not (the monitor still
    uses entries with non-fatal errors); it then prints at most one
    certificate: the X.509 certificate when there is one, otherwise the
    precertificate's TBS certificate. *)
Theorem json_to_cert_ok (format : string) (args : list string) (env : ToolEnv) :
  (json_to_cert format args env).2 = ToolOk ->
  exists fmt path rest raw le,
    parseFormat format = Some fmt /\ args = path :: rest /\
    open_ok env path = true /\ read_leaf env path = Some raw /\
    leaf_decode env 0 raw = DecOk le /\
    (((json_to_cert format args env).1 = [TOpen path] /\
      X509Cert le = None /\ Precert le = None) \/
     exists c, (json_to_cert format args env).1 = [TOpen path; TPrint fmt c] /\
       (X509Cert le = Some c \/ (X509Cert le = None /\ Precert le = Some c))).
Proof.
  unfold json_to_cert.
  destruct (parseFormat format) as [fmt|]; [| discriminate].
  destruct args as [|path rest]; [discriminate |].
  destruct (open_ok env path) eqn:Ho; simpl; [| discriminate].
  destruct (read_leaf env path) as [raw|] eqn:Hr; [| discriminate].
  destruct (leaf_decode env 0 raw) as [le|le|] eqn:Hd; try discriminate.
  intros Hok. exists fmt, path, rest, raw, le.
  do 5 (split; [done |]).
  revert Hok.
  destruct (X509Cert le) as [c|] eqn:Hx; [| destruct (Precert le) as [c|] eqn:Hp].
  3: { intros _. left. done. }
  all: destruct fmt; simpl;
    [destruct (text_ok env c) | destruct (json_ok env c) | ]; simpl;
    try discriminate; intros _; right; exists c; split; auto.
Qed.

Lemma json_to_cert_ok_witness :
  exists fmt path rest raw le,
    parseFormat "pem" = Some fmt /\ ["cert.json"%string] = path :: rest /\
    open_ok (tool_env_of "cert.json" (mkRawEntry "www.google.com")) path = true /\
    read_leaf (tool_env_of "cert.json" (mkRawEntry "www.google.com")) path
      = Some raw /\
    leaf_decode (tool_env_of "cert.json" (mkRawEntry "www.google.com")) 0 raw
      = DecOk le /\
    (((json_to_cert "pem" ["cert.json"%string]
         (tool_env_of "cert.json" (mkRawEntry "www.google.com"))).1
        = [TOpen path] /\ X509Cert le = None /\ Precert le = None) \/
     exists c, (json_to_cert "pem" ["cert.json"%string]
                  (tool_env_of "cert.json" (mkRawEntry "www.google.com"))).1
                 = [TOpen path; TPrint fmt c] /\
       (X509Cert le = Some c \/ (X509Cert le = None /\ Precert le = Some c))).
Proof.
  apply json_to_cert_ok. vm_compute. reflexivity.
Defined.

(** X18: with pre-certificates on, an entry of the fetched batch that
    decodes (with or without a non-fatal error) to a precertificate whose
    TBS certificate the rules match gets an artifact named after the
    matched name, when writes succeed. *)
Theorem processLog_precerts_on (conf : Config) (pats : list Regexp)
    (env : LogEnv) (st : LogState) (size : Z) (es : list RawEntry)
    (i : nat) (e : RawEntry) (le : LogEntry) (tbs : Certificate)
    (n d : string) :
  IncludePreCerts conf = true ->
  client_new_ok env = true -> get_sth env = Some size ->
  LastFetched st <> 0 -> size <> LastFetched st ->
  GetRawEntries env (toInt64 (u64 (LastFetched st + 1))) (toInt64 size)
    = Some es ->
  (forall e, marshal_ok env e = true) -> (forall i, put_ok env i = true) ->
  es !! i = Some e ->
  (decode env (toInt64 (u64 (LastFetched st + 1)) + Z.of_nat i) e = DecOk le \/
   decode env (toInt64 (u64 (LastFetched st + 1)) + Z.of_nat i) e
     = DecNonFatal le) ->
  Precert le = Some tbs -> nameMatches conf pats tbs = (true, n, d) ->
  In (EvPut (toInt64 (u64 (LastFetched st + 1)) + Z.of_nat i) n true)
     (processLog conf pats env st).1.
Proof.
  intros Hinc Hc Hs Hn Hne Hg Hm Hp Hi Hd Hpre Hnm.
  rewrite (processLog_advance_eq conf pats env st size es) by done.
  right. right.
  destruct (scan_all_ok conf pats env (toInt64 (u64 (LastFetched st + 1))) 0 es Hm Hp)
    as [_ Hall].
  destruct (Hall i e Hi) as [_ Hput]. rewrite Nat.add_0_l in Hput. apply Hput.
  unfold entry_match, selectCert. rewrite Hinc.
  destruct Hd as [-> | ->]; by rewrite Hpre, Hnm.
Qed.

Lemma processLog_precerts_on_witness :
  In (EvPut 12 "www.google.com" true)
     (processLog (mkConfig ["google.com"] [] true) [] precert_env (state_at 10)).1.
Proof.
  exact (processLog_precerts_on (mkConfig ["google.com"] [] true) [] precert_env
           (state_at 10) 15 (drop 11 (sample_log 15 12)) 1
           (mkRawEntry "www.google.com")
           (mkLogEntry None (Some (mkCertificate ["www.google.com"])))
           (mkCertificate ["www.google.com"]) "www.google.com" "domain-google.com"
           eq_refl eq_refl eq_refl ltac:(simpl; lia) ltac:(simpl; lia) eq_refl
           (fun _ => eq_refl) (fun _ => eq_refl) eq_refl (or_introl eq_refl)
           eq_refl eq_refl).
Defined.
